(** * go-licenses: the library grouping engine ([licenses/library.go])

    A shallow embedding of [Libraries], [Library.Name] / [commonAncestor]
    and [Library.FileURL], together with the parts of the Go runtime they
    rely on ([packages.Visit], [sort.Strings], [sort.Slice],
    [strings.SplitN], [path/filepath]). *)

From Stdlib Require Import Strings.String Strings.Ascii.
From stdpp Require Import gmap strings list sorting fin_maps relations.

Open Scope string_scope.
Open Scope list_scope.
Open Scope nat_scope.

(** ** Go strings *)

Module GoStrings.

(** [strings.HasPrefix(s, prefix)] *)
Definition HasPrefix (s prefix : string) : bool := String.prefix prefix s.

(** [strings.HasSuffix(s, suffix)] *)
Definition HasSuffix (s suffix : string) : bool :=
  String.prefix (String.rev suffix) (String.rev s).

(** [s[:n]] for [n <= len(s)] *)
Definition slice_to (n : nat) (s : string) : string := String.substring 0 n s.

(** [s[n:]] *)
Fixpoint slice_from (n : nat) (s : string) : string :=
  match n, s with
  | S n', String _ s' => slice_from n' s'
  | _, _ => s
  end.

(** [strings.Cut(s, sep)]: the text before and after the first instance
    of [sep]. *)
Fixpoint Cut (sep s : string) : option (string * string) :=
  if String.prefix sep s
  then Some ("", slice_from (String.length sep) s)
  else match s with
       | EmptyString => None
       | String c s' =>
           match Cut sep s' with
           | Some (before, after) => Some (String c before, after)
           | None => None
           end
       end.

(** [strings.SplitN(s, sep, 2)] for a non-empty [sep]: at most two
    substrings, the second being the unsplit remainder. *)
Definition SplitN2 (s sep : string) : list string :=
  match Cut sep s with
  | Some (before, after) => [before; after]
  | None => [s]
  end.

(** Go's [<] on strings: bytewise lexicographic order. *)
Definition lt (a b : string) : bool := String.ltb a b.

(** [sort.Strings]: the slice rearranged in increasing order.  The order is
    total and antisymmetric, so the outcome does not depend on the sorting
    algorithm. *)
Definition sort_Strings (paths : list string) : list string :=
  merge_sort String.le paths.

End GoStrings.

Import GoStrings.

(** ** Naming a library *)

(** The loop of [commonAncestor]: [smin] and [smax] are [min[i:]] and
    [max[i:]]. *)
Fixpoint ancestorLoop (min : string) (smin smax : string)
    (i lastSlashIndex : nat) : string :=
  match smin, smax with
  | String a smin', String b smax' =>
      if negb (Ascii.eqb a b) then slice_to lastSlashIndex min
      else ancestorLoop min smin' smax' (S i)
             (if Ascii.eqb a "/" then i else lastSlashIndex)
  | _, _ => min
  end.

(** [commonAncestor(paths)]: the string returned, and the contents of the
    slice [paths] after the call ([sort.Strings] sorts it in place). *)
Definition commonAncestor (paths : list string) : string * list string :=
  match paths with
  | [] => ("", paths)
  | [p] => (p, paths)
  | _ =>
      let paths := sort_Strings paths in
      let min := hd "" paths in
      let max := List.last paths "" in
      (ancestorLoop min min max 0 0, paths)
  end.

(** The naming rule in the words of the design document. *)
Module NamingRule.

(** index of the first position where the two strings differ *)
Fixpoint firstMismatch (a b : string) : option nat :=
  match a, b with
  | String x a', String y b' =>
      if Ascii.eqb x y then S <$> firstMismatch a' b' else Some 0
  | _, _ => None
  end.

(** index of the last ["/"] strictly before position [k] *)
Fixpoint lastSlashBefore (k : nat) (s : string) : option nat :=
  match k, s with
  | S k', String c s' =>
      match lastSlashBefore k' s' with
      | Some j => Some (S j)
      | None => if Ascii.eqb c "/" then Some 0 else None
      end
  | _, _ => None
  end.

Definition truncateAtBoundary (first last : string) : string :=
  match firstMismatch first last with
  | None => first
  | Some k =>
      match lastSlashBefore k first with
      | Some j => slice_to j first
      | None => ""
      end
  end.

Definition name (members : list string) : string :=
  match members with
  | [] => ""
  | [m] => m
  | _ =>
      let sorted := sort_Strings members in
      truncateAtBoundary (hd "" sorted) (List.last sorted "")
  end.

End NamingRule.

(** ** [path/filepath] (Unix) *)

Module filepath.

(** [strings.Split(s, "/")] *)
Fixpoint splitSlash (s : string) : list string :=
  match s with
  | EmptyString => [""]
  | String c s' =>
      if Ascii.eqb c "/" then "" :: splitSlash s'
      else match splitSlash s' with
           | x :: xs => String c x :: xs
           | [] => [String c ""]
           end
  end.

Definition joinSlash (elems : list string) : string := String.concat "/" elems.

(** One path element processed by [Clean]; [out] holds the elements
    written so far, the last one first. *)
Definition cleanStep (rooted : bool) (out : list string) (elem : string)
    : list string :=
  if decide (elem = "" \/ elem = ".") then out
  else if decide (elem = "..") then
    match out with
    | e :: out' => if decide (e = "..") then ".." :: out else out'
    | [] => if rooted then [] else [".."]
    end
  else elem :: out.

(** [filepath.Clean]: the shortest path name equivalent to [path] by
    purely lexical processing. *)
Definition Clean (path : string) : string :=
  if decide (path = "") then "."
  else
    let rooted := String.prefix "/" path in
    let out := foldl (cleanStep rooted) [] (splitSlash path) in
    let body := joinSlash (reverse out) in
    if rooted then "/" +:+ body
    else if decide (body = "") then "." else body.

(** [path[:i+1]] where [i] is the index of the last separator *)
Definition throughLastSlash (path : string) : string :=
  match splitSlash path with
  | [] | [_] => ""
  | elems => joinSlash (removelast elems) +:+ "/"
  end.

(** [filepath.Dir] *)
Definition Dir (path : string) : string := Clean (throughLastSlash path).

(** The elements of a cleaned path, as the scanning loop of [Rel] meets
    them. *)
Definition elements (p : string) : list string :=
  if decide (p = "") then []
  else if decide (p = "/") then [""]
  else splitSlash p.

Fixpoint dropCommon (base targ : list string) : list string * list string :=
  match base, targ with
  | b :: base', t :: targ' =>
      if decide (b = t) then dropCommon base' targ' else (base, targ)
  | _, _ => (base, targ)
  end.

(** [filepath.Rel(basepath, targpath)]: [None] stands for the error
    "Rel: can't make targpath relative to basepath". *)
Definition Rel (basepath targpath : string) : option string :=
  let base := Clean basepath in
  let targ := Clean targpath in
  if decide (targ = base) then Some "."
  else
    let base := if decide (base = ".") then "" else base in
    if negb (eqb (String.prefix "/" base) (String.prefix "/" targ)) then None
    else
      match dropCommon (elements base) (elements targ) with
      | ([], t) => Some (joinSlash t)
      | (b :: bs, t) =>
          if decide (b = "..") then None
          else
            let up := joinSlash ((λ _, "..") <$> (b :: bs)) in
            Some (match t with
                  | [] => up
                  | _ => up +:+ "/" +:+ joinSlash t
                  end)
      end.

End filepath.

(** ** Data model *)

(** [*packages.Package]: an address in the store of loaded packages. *)
Definition Ptr := nat.

Module packages.

(** [packages.Module], as far as it is read here. *)
Record Module_ := { Path : string; Version : string; Dir : string }.

Record Package := {
  Name : string;
  PkgPath : string;
  Errors : list string;
  GoFiles : list string;
  CompiledGoFiles : list string;
  OtherFiles : list string;
  Imports : gmap string Ptr;
  Module' : option Module_
}.

(** The packages [packages.Load] allocated; [g !! p] dereferences [p]. *)
Definition Graph := list Package.

End packages.

(** [licenses.Module] *)
Record Module_ := { Path : string; Version : string; Dir : string }.

(** Modelled from the spec: [newModule] ([licenses/module.go]) is not part
    of the sources at hand.  The design document only says that a Library
    carries "the module of" a package, a module being the triple (path,
    version, local directory); a nil module stays nil. *)
Definition newModule (pm : option packages.Module_) : option Module_ :=
  match pm with
  | None => None
  | Some m => Some {| Path := packages.Path m;
                      Version := packages.Version m;
                      Dir := packages.Dir m |}
  end.

Record Library := {
  LicensePath : string;
  Packages : list string;
  module : option Module_
}.

Inductive Error :=
| LoadError (msg : string)
| PackagesError (pkgs : list Ptr)
| DependencyErrors
| LibraryIsNil
| EmptyModuleInfo
| EmptyModuleDir
| RelError (basepath targpath : string)
| ExternalError (msg : string)
| Wrapped (library : string) (err : Error).

(** What [klog] is asked to print. *)
Inductive Diag :=
| WarnNonGoCode (pkgPath : string) (files : list string)
| ErrNoModuleInfo (pkgPath : string)
| ErrFindLicense (pkgPath : string) (err : Error)
| WarnNotVendored (modulePath : string)
| WarnNoParentPackage (modulePath : string)
| WarnEmptyVersion (modulePath : string).

Global Instance Module_eq_dec : EqDecision Module_.
Proof. solve_decision. Defined.
Global Instance Library_eq_dec : EqDecision Library.
Proof. solve_decision. Defined.

(** ** [packages.Visit] *)

(** [for _, x := range xs { s = f(x, s) }] where [f] may run out of fuel *)
Fixpoint forEach {A B} (f : A → B → option B) (xs : list A) (s : B) : option B :=
  match xs with
  | [] => Some s
  | x :: xs' => match f x s with
                | Some s' => forEach f xs' s'
                | None => None
                end
  end.

Section Visit.
Context {St : Type}.
Variable g : packages.Graph.
Variable pre : Ptr → packages.Package → St → bool * St.

(** The closure [visit] of [packages.Visit] with [post == nil].  The state
    is the [seen] map together with whatever [pre] captured.  Every call
    that enters a package consumes fuel; [None] means the fuel ran out.
    A pointer that is not in the store is never produced by the loader;
    it is left unvisited. *)
Fixpoint visit (fuel : nat) (pkg : Ptr) (vs : gset Ptr * St)
    : option (gset Ptr * St) :=
  if decide (pkg ∈ vs.1) then Some vs
  else
    match g !! pkg with
    | None => Some vs
    | Some p =>
        match fuel with
        | 0 => None
        | S fuel' =>
            let seen := {[pkg]} ∪ vs.1 in
            let '(descend, s) := pre pkg p vs.2 in
            if descend then
              let paths :=
                sort_Strings ((map_to_list (packages.Imports p)).*1) in
              forEach (λ path vs',
                         match packages.Imports p !! path with
                         | Some q => visit fuel' q vs'
                         | None => Some vs'
                         end) paths (seen, s)
            else Some (seen, s)
        end
    end.

(** [packages.Visit(pkgs, pre, nil)].  Each entered package is new, so the
    recursion is never deeper than the number of packages in the store. *)
Definition Visit (pkgs : list Ptr) (s : St) : option (gset Ptr * St) :=
  forEach (visit (length g)) pkgs (∅, s).

End Visit.

(** ** [Library.Name] and the final sort *)

(** [l.Name()] as it executes: the name, and the receiver afterwards
    ([commonAncestor] is handed the slice [l.Packages] itself). *)
Definition Name_run (l : Library) : string * Library :=
  let '(name, paths) := commonAncestor (Packages l) in
  (name, {| LicensePath := LicensePath l; Packages := paths; module := module l |}).

Definition Name (l : Library) : string := (Name_run l).1.

(** The closure given to [sort.Slice]:
    [libraries[i].Name() < libraries[j].Name()], with what it leaves behind
    in the two libraries. *)
Definition less (li lj : Library) : bool * (Library * Library) :=
  let '(ni, li') := Name_run li in
  let '(nj, lj') := Name_run lj in
  (lt ni nj, (li', lj')).

(** One round of the inner loop of insertion sort,
    [for j := i; j > a && Less(j, j-1); j-- { Swap(j, j-1) }]:
    [x] is [data[j]] and [before] is [data[a:j]], nearest element first. *)
Fixpoint insertLeft (x : Library) (before : list Library) : list Library :=
  match before with
  | [] => [x]
  | y :: rest =>
      let '(isLess, (x', y')) := less x y in
      if isLess then y' :: insertLeft x' rest else x' :: y' :: rest
  end.

(** [sort.Slice(libraries, less)].  The Go runtime sorts slices of up to 12
    elements by insertion, which is what is modelled here for every length;
    longer slices go through pattern-defeating quicksort, which yields a
    permutation sorted by [less] as well but may order elements that compare
    equal differently. *)
Definition sort_Slice (libraries : list Library) : list Library :=
  reverse (foldl (λ before x, insertLeft x before) [] libraries).

(** ** [Libraries] *)

(** The variables captured by the closure passed to [packages.Visit], and
    the messages sent to [klog] so far. *)
Record scan := {
  pkgErrorOccurred : bool;
  otherErrorOccurred : bool;
  pkgs : gmap string packages.Package;
  pkgsByLicense : gmap string (list packages.Package);
  klog : list Diag
}.

(** What a call leaves behind: the two results and the log. *)
Record returned := {
  libraries : list Library;
  err : option Error;
  logged : list Diag
}.

(** [isTestBinary] *)
Definition isTestBinary (pkg : packages.Package) : bool :=
  HasSuffix (packages.PkgPath pkg) ".test".

(** The first [rootPkg] with [rootPkg.Module != nil &&
    rootPkg.Module.Dir == parentModDir]. *)
Fixpoint findParent (rootPkgs : list packages.Package) (parentModDir : string)
    : option packages.Package :=
  match rootPkgs with
  | [] => None
  | rootPkg :: rest =>
      match packages.Module' rootPkg with
      | Some m =>
          if decide (packages.Dir m = parentModDir) then Some rootPkg
          else findParent rest parentModDir
      | None => findParent rest parentModDir
      end
  end.

(** A package without a license is a library of its own. *)
Definition ungovernedLibrary (p : packages.Package) : Library :=
  {| LicensePath := "";
     Packages := [packages.PkgPath p];
     module := newModule (packages.Module' p) |}.

(** The library of a license file: the loop over the bucket's packages. *)
Definition bucketLibrary (licensePath : string) (pkgs : list packages.Package)
    : Library :=
  foldl (λ lib pkg,
           {| LicensePath := LicensePath lib;
              Packages := Packages lib ++ [packages.PkgPath pkg];
              module := match module lib, packages.Module' pkg with
                        | None, Some m => newModule (Some m)
                        | cur, _ => cur
                        end |})
        {| LicensePath := licensePath; Packages := []; module := None |}
        pkgs.

(** The vendoring special case: the library afterwards and the warnings. *)
Definition resolveVendored (rootPkgs : list packages.Package) (lib : Library)
    : Library * list Diag :=
  match module lib with
  | Some m =>
      if bool_decide (Path m ≠ "") && bool_decide (Dir m = "") then
        match SplitN2 (LicensePath lib) "/vendor/" with
        | [parentModDir; _] =>
            match findParent rootPkgs parentModDir with
            | None => (lib, [WarnNoParentPackage (Path m)])
            | Some parentPkg =>
                ({| LicensePath := LicensePath lib;
                    Packages := Packages lib;
                    module := newModule (packages.Module' parentPkg) |}, [])
            end
        | _ => (lib, [WarnNotVendored (Path m)])
        end
      else (lib, [])
  | None => (lib, [])
  end.

(** The body of [for licensePath, pkgs := range pkgsByLicense]. *)
Definition emitBucket (rootPkgs : list packages.Package)
    (acc : list Library * list Diag) (entry : string * list packages.Package)
    : list Library * list Diag :=
  let '(licensePath, pkgs) := entry in
  if decide (licensePath = "") then
    (acc.1 ++ (ungovernedLibrary <$> pkgs), acc.2)
  else
    let '(lib, diags) := resolveVendored rootPkgs (bucketLibrary licensePath pkgs) in
    (acc.1 ++ [lib], acc.2 ++ diags).

Section Libraries.
Context {Classifier : Type}.
(** [build.Default.GOROOT] *)
Variable GOROOT : string.
(** [Find(dir, rootDir, classifier)], the license locator *)
Variable Find : string → string → Classifier → string * option Error.
(** The order in which [range] yields the entries of a map.  The language
    leaves it unspecified and it changes from one run to the next. *)
Variable rangeOrder :
  gmap string (list packages.Package) → list (string * list packages.Package).

(** [isStdLib] *)
Definition isStdLib (pkg : packages.Package) : bool :=
  if decide (packages.Name pkg = "unsafe") then true
  else
    match packages.GoFiles pkg with
    | [] => false
    | file :: _ =>
        let sep := "/" in
        let prefix := if HasSuffix GOROOT sep then GOROOT else GOROOT +:+ sep in
        HasPrefix file prefix
    end.

(** The [switch] that picks [pkgDir]; [None] is the [default] case. *)
Definition pkgDirOf (p : packages.Package) : option string :=
  match packages.GoFiles p, packages.CompiledGoFiles p, packages.OtherFiles p with
  | f :: _, _, _ => Some (filepath.Dir f)
  | [], f :: _, _ => Some (filepath.Dir f)
  | [], [], f :: _ => Some (filepath.Dir f)
  | [], [], [] => None
  end.

Variable classifier : Classifier.
Variable includeTests : bool.
Variable ignoredPaths : list string.

Definition say (d : Diag) (s : scan) : scan :=
  {| pkgErrorOccurred := pkgErrorOccurred s;
     otherErrorOccurred := otherErrorOccurred s;
     pkgs := pkgs s;
     pkgsByLicense := pkgsByLicense s;
     klog := klog s ++ [d] |}.

(** The function literal passed to [packages.Visit] as [pre]: whether to
    visit the imports of [p], and the captured variables afterwards. *)
Definition visitPackage (_ : Ptr) (p : packages.Package) (s : scan)
    : bool * scan :=
  if bool_decide (0 < length (packages.Errors p)) then
    (false, {| pkgErrorOccurred := true;
               otherErrorOccurred := otherErrorOccurred s;
               pkgs := pkgs s;
               pkgsByLicense := pkgsByLicense s;
               klog := klog s |})
  else if isStdLib p then (false, s)
  else if includeTests && isTestBinary p then (false, s)
  else if existsb (λ i, HasPrefix (packages.PkgPath p) i) ignoredPaths then (true, s)
  else
    let s := if bool_decide (0 < length (packages.OtherFiles p))
             then say (WarnNonGoCode (packages.PkgPath p) (packages.OtherFiles p)) s
             else s in
    match pkgDirOf p with
    | None => (true, s)
    | Some pkgDir =>
        match packages.Module' p with
        | None =>
            (false,
             say (ErrNoModuleInfo (packages.PkgPath p))
               {| pkgErrorOccurred := pkgErrorOccurred s;
                  otherErrorOccurred := true;
                  pkgs := pkgs s;
                  pkgsByLicense := pkgsByLicense s;
                  klog := klog s |})
        | Some m =>
            let '(licensePath, e) := Find pkgDir (packages.Dir m) classifier in
            let s := match e with
                     | Some e => say (ErrFindLicense (packages.PkgPath p) e) s
                     | None => s
                     end in
            (true,
             {| pkgErrorOccurred := pkgErrorOccurred s;
                otherErrorOccurred := otherErrorOccurred s;
                pkgs := <[packages.PkgPath p := p]> (pkgs s);
                pkgsByLicense :=
                  <[licensePath := default [] (pkgsByLicense s !! licensePath) ++ [p]]>
                    (pkgsByLicense s);
                klog := klog s |})
        end
    end.

Definition scan0 : scan :=
  {| pkgErrorOccurred := false; otherErrorOccurred := false;
     pkgs := ∅; pkgsByLicense := ∅; klog := [] |}.

(** [Libraries], from the outcome [(rootPkgs, err)] of [packages.Load] on;
    [g] is the store the loaded packages live in.  [None]: the traversal
    ran out of fuel. *)
Definition Libraries (g : packages.Graph) (load : list Ptr * option Error)
    : option returned :=
  let '(rootPkgs, e) := load in
  match e with
  | Some e => Some {| libraries := []; err := Some e; logged := [] |}
  | None =>
      match Visit g visitPackage rootPkgs scan0 with
      | None => None
      | Some (_, s) =>
          if pkgErrorOccurred s then
            Some {| libraries := []; err := Some (PackagesError rootPkgs);
                    logged := klog s |}
          else if otherErrorOccurred s then
            Some {| libraries := []; err := Some DependencyErrors;
                    logged := klog s |}
          else
            let roots := omap (λ r, g !! r) rootPkgs in
            let '(libraries, log) :=
              foldl (emitBucket roots) ([], klog s) (rangeOrder (pkgsByLicense s)) in
            Some {| libraries := sort_Slice libraries; err := None; logged := log |}
      end
  end.

End Libraries.

(** ** [Library.FileURL] *)

(** Modelled from the spec: the source-host descriptor
    ([internal/third_party/pkgsite/source], not part of the sources at
    hand) holds a repository and a commit reference; [SetCommit] replaces the
    reference. *)
Record Info := { repoURL : string; commit : string }.

Definition SetCommit (remote : Info) (ref : string) : Info :=
  {| repoURL := repoURL remote; commit := ref |}.

Section FileURL.
(** [source.ModuleInfo(ctx, client, path, version)] *)
Variable ModuleInfo : string → string → Info + Error.
(** [remote.FileURL(pathname)], the descriptor's URL builder *)
Variable Info_FileURL : Info → string → string.

Definition wrap (l : Library) (e : Error) : Error := Wrapped (Name l) e.

(** [l.FileURL(ctx, filePath)]; [l] is [None] for a nil receiver. *)
Definition FileURL (l : option Library) (filePath : string)
    : string * option Error * list Diag :=
  match l with
  | None => ("", Some LibraryIsNil, [])
  | Some l =>
      match module l with
      | None => ("", Some (wrap l EmptyModuleInfo), [])
      | Some m =>
          if decide (Dir m = "") then ("", Some (wrap l EmptyModuleDir), [])
          else
            match ModuleInfo (Path m) (Version m) with
            | inr e => ("", Some (wrap l e), [])
            | inl remote =>
                let '(remote, log) :=
                  if decide (Version m = "")
                  then (SetCommit remote "HEAD", [WarnEmptyVersion (Path m)])
                  else (remote, []) in
                match filepath.Rel (Dir m) filePath with
                | None => ("", Some (wrap l (RelError (Dir m) filePath)), log)
                | Some relativePath =>
                    (Info_FileURL remote relativePath, None, log)
                end
            end
      end
  end.

End FileURL.


(** ** Auxiliary notions used in the statements and proofs *)

(** The library as [Name()] leaves it. *)
Definition touch (l : Library) : Library := (Name_run l).2.

Definition name_le (a b : Library) : Prop := String.le (Name a) (Name b).

(** Insertion without side effects, on libraries [Name()] has been called
    on already. *)
Fixpoint insertPure (x : Library) (before : list Library) : list Library :=
  match before with
  | [] => [x]
  | y :: rest =>
      if lt (Name x) (Name y) then y :: insertPure x rest else x :: y :: rest
  end.

Definition sortPure (libraries : list Library) : list Library :=
  reverse (foldl (λ before x, insertPure x before) [] libraries).

(** ** The traversal order *)

Section Order.
Variable g : packages.Graph.
(** whether the traversal goes on to the imports of a package *)
Variable descend : packages.Package → bool.

(** A [pre] that only writes down the packages it is called on. *)
Definition tracePre (ptr : Ptr) (p : packages.Package) (t : list Ptr)
    : bool * list Ptr :=
  (descend p, t ++ [ptr]).

(** The packages [pre] is called on, in the order of the calls. *)
Definition visitOrder (rootPkgs : list Ptr) : list Ptr :=
  match Visit g tracePre rootPkgs [] with
  | Some (_, t) => t
  | None => []
  end.

(** [b] is an import of [a], and the traversal descends into [a]. *)
Definition edge (a b : Ptr) : Prop :=
  ∃ pa path, g !! a = Some pa ∧ descend pa = true ∧
             packages.Imports pa !! path = Some b ∧ is_Some (g !! b).

(** Reachable from a root through packages the traversal descends into. *)
Definition reachable (rootPkgs : list Ptr) (x : Ptr) : Prop :=
  ∃ r, r ∈ rootPkgs ∧ is_Some (g !! r) ∧ rtc edge r x.

Definition validSet : gset Ptr := list_to_set (seq 0 (length g)).

Definition closed (new : list Ptr) (seen : gset Ptr) : Prop :=
  ∀ x p path q, x ∈ new → g !! x = Some p → descend p = true →
                packages.Imports p !! path = Some q → is_Some (g !! q) →
                q ∈ seen.

(** What a stretch of the traversal adds to [seen] and to the trace. *)
Definition grows (start : Ptr → Prop) (vs vs' : gset Ptr * list Ptr) : Prop :=
  ∃ new, vs'.2 = vs.2 ++ new ∧ vs'.1 = vs.1 ∪ list_to_set new ∧ NoDup new ∧
         (∀ x, x ∈ new → (x ∉ vs.1) ∧ is_Some (g !! x) ∧
                         ∃ r, start r ∧ rtc edge r x) ∧
         closed new vs'.1.

End Order.

(** ** What the filter makes of a package *)

(** Two runs of the traversal with different [pre] functions stay in step
    when the functions agree on whether to descend. *)
Definition visitRel {St1 St2} (R : St1 → St2 → Prop)
    (a : option (gset Ptr * St1)) (b : option (gset Ptr * St2)) : Prop :=
  match a, b with
  | Some (seen1, s1), Some (seen2, s2) => seen1 = seen2 ∧ R s1 s2
  | None, None => True
  | _, _ => False
  end.

(** The outcomes of the function literal passed to [packages.Visit]. *)
Inductive kind :=
| Errored
| StdLib
| TestBinary
| Ignored
| Empty
| NoModule
| Accepted (licensePath : string).

Global Instance kind_eq_dec : EqDecision kind.
Proof. solve_decision. Defined.

Section Filter.
Context {Classifier : Type}.
Variable GOROOT : string.
Variable Find : string → string → Classifier → string * option Error.
Variable classifier : Classifier.
Variable includeTests : bool.
Variable ignoredPaths : list string.

Definition classify (p : packages.Package) : kind :=
  if bool_decide (0 < length (packages.Errors p)) then Errored
  else if isStdLib GOROOT p then StdLib
  else if includeTests && isTestBinary p then TestBinary
  else if existsb (λ i, HasPrefix (packages.PkgPath p) i) ignoredPaths then Ignored
  else match pkgDirOf p with
       | None => Empty
       | Some pkgDir =>
           match packages.Module' p with
           | None => NoModule
           | Some m => Accepted (Find pkgDir (packages.Dir m) classifier).1
           end
       end.

(** The traversal goes on to the imports of [p]. *)
Definition descends (p : packages.Package) : bool :=
  match classify p with
  | Ignored | Empty | Accepted _ => true
  | Errored | StdLib | TestBinary | NoModule => false
  end.

(** The license path under which [p] is put into [pkgsByLicense]. *)
Definition licenseOf (p : packages.Package) : option string :=
  match classify p with
  | Accepted licensePath => Some licensePath
  | _ => None
  end.

Definition record (p : packages.Package) (s : scan) : scan :=
  (visitPackage GOROOT Find classifier includeTests ignoredPaths 0 p s).2.

(** The packages the closure is called on, in the order of the calls. *)
Definition visited (g : packages.Graph) (rootPkgs : list Ptr)
    : list packages.Package :=
  omap (λ x, g !! x) (visitOrder g descends rootPkgs).

(** The surviving packages, each with the license path found for it. *)
Definition survivors (g : packages.Graph) (rootPkgs : list Ptr)
    : list (string * packages.Package) :=
  omap (λ p, (λ licensePath, (licensePath, p)) <$> licenseOf p)
       (visited g rootPkgs).

(** The captured variables when [packages.Visit] returns. *)
Definition scanned (g : packages.Graph) (rootPkgs : list Ptr) : scan :=
  foldl (λ s p, record p s) scan0 (visited g rootPkgs).

End Filter.

(** [pkgsByLicense] after the packages [kps] have been put into it. *)
Definition group (kps : list (string * packages.Package))
    : gmap string (list packages.Package) :=
  foldl (λ m kp, <[kp.1 := default [] (m !! kp.1) ++ [kp.2]]> m) ∅ kps.

(** The module of the first package that has one. *)
Fixpoint firstModule (pkgs : list packages.Package) : option Module_ :=
  match pkgs with
  | [] => None
  | p :: rest =>
      match packages.Module' p with
      | Some m => newModule (Some m)
      | None => firstModule rest
      end
  end.

(** The libraries one entry of [pkgsByLicense] gives rise to. *)
Definition bucketLibraries (rootPkgs : list packages.Package)
    (entry : string * list packages.Package) : list Library :=
  if decide (entry.1 = "") then ungovernedLibrary <$> entry.2
  else [(resolveVendored rootPkgs (bucketLibrary entry.1 entry.2)).1].

Definition bucketDiags (rootPkgs : list packages.Package)
    (entry : string * list packages.Package) : list Diag :=
  if decide (entry.1 = "") then []
  else (resolveVendored rootPkgs (bucketLibrary entry.1 entry.2)).2.

(** ** The vendoring marker in a license path *)

(** [s] is [before], the separator and [after], and the separator does not
    occur any earlier in [s]. *)
Definition firstSplit (sep s before after : string) : Prop :=
  s = before +:+ sep +:+ after ∧
  ∀ before' after', s = before' +:+ sep +:+ after' →
                    String.length before ≤ String.length before'.



(** ** Sample inputs *)

Module Examples.

Definition GOROOT : string := "/usr/local/go".

Definition pkg (name pkgPath : string) (goFiles : list string)
    (imports : gmap string Ptr) (m : option packages.Module_) : packages.Package :=
  {| packages.Name := name; packages.PkgPath := pkgPath; packages.Errors := [];
     packages.GoFiles := goFiles; packages.CompiledGoFiles := [];
     packages.OtherFiles := []; packages.Imports := imports;
     packages.Module' := m |}.

Definition broken (p : packages.Package) (e : string) : packages.Package :=
  {| packages.Name := packages.Name p; packages.PkgPath := packages.PkgPath p;
     packages.Errors := [e];
     packages.GoFiles := packages.GoFiles p;
     packages.CompiledGoFiles := packages.CompiledGoFiles p;
     packages.OtherFiles := packages.OtherFiles p;
     packages.Imports := packages.Imports p;
     packages.Module' := packages.Module' p |}.

Definition module_ (path version dir : string) : option packages.Module_ :=
  Some {| packages.Path := path; packages.Version := version; packages.Dir := dir |}.

(** A locator that finds a license file at the root of every module. *)
Definition findAtRoot (dir rootDir : string) (_ : unit) : string * option Error :=
  (rootDir +:+ "/LICENSE", None).

(** A locator that finds nothing. *)
Definition findNothing (dir rootDir : string) (_ : unit) : string * option Error :=
  ("", None).

(** Two orders in which [range] may yield the entries of a map. *)
Definition ascending (m : gmap string (list packages.Package)) :=
  map_to_list m.

Definition modM := module_ "example.com/m" "v1.2.3" "/src/m".

(** Two packages of one module under one license file. *)
Definition twoPackages : packages.Graph :=
  [ pkg "x" "example.com/m/x" ["/src/m/x/x.go"] {[ "example.com/m/y" := 1 ]} modM;
    pkg "y" "example.com/m/y" ["/src/m/y/y.go"] ∅ modM ].

(** A package and its variant compiled for the test, as the loader returns
    them when tests are included: two packages with one import path. *)
Definition withTestVariant : packages.Graph :=
  [ pkg "x" "example.com/m/x" ["/src/m/x/x.go"] ∅ modM;
    pkg "x" "example.com/m/x" ["/src/m/x/x.go"; "/src/m/x/x_test.go"] ∅ modM ].

(** An application that uses the module [example.com/go/kit] and two
    packages below it that an older version of the enclosing module
    [example.com/go] still provides. *)
Definition nestedModules : packages.Graph :=
  [ pkg "main" "example.com/app" ["/src/app/main.go"]
      {[ "example.com/go/kit" := 1; "example.com/go/kit/log" := 2;
         "example.com/go/kit/trace" := 3 ]}
      (module_ "example.com/app" "" "/src/app");
    pkg "kit" "example.com/go/kit" ["/mod/example.com/go/kit@v1.0.0/kit.go"] ∅
      (module_ "example.com/go/kit" "v1.0.0" "/mod/example.com/go/kit@v1.0.0");
    pkg "log" "example.com/go/kit/log" ["/mod/example.com/go@v0.1.0/kit/log/log.go"] ∅
      (module_ "example.com/go" "v0.1.0" "/mod/example.com/go@v0.1.0");
    pkg "trace" "example.com/go/kit/trace"
      ["/mod/example.com/go@v0.1.0/kit/trace/trace.go"] ∅
      (module_ "example.com/go" "v0.1.0" "/mod/example.com/go@v0.1.0") ].

(** An application that imports a standard library package, one of whose
    own imports failed to load. *)
Definition brokenBehindStdlib : packages.Graph :=
  [ pkg "main" "example.com/app" ["/src/app/main.go"] {[ "net" := 1 ]}
      (module_ "example.com/app" "" "/src/app");
    pkg "net" "net" ["/usr/local/go/src/net/net.go"] {[ "runtime/cgo" := 2 ]} None;
    broken (pkg "cgo" "runtime/cgo" ["/usr/local/go/src/runtime/cgo/cgo.go"] ∅ None)
      "could not import C (no metadata for C)" ].

(** The same, with the broken package imported by the application itself. *)
Definition brokenImport : packages.Graph :=
  [ pkg "main" "example.com/app" ["/src/app/main.go"] {[ "example.com/dep" := 1 ]}
      (module_ "example.com/app" "" "/src/app");
    broken (pkg "dep" "example.com/dep" ["/mod/example.com/dep@v1.0.0/dep.go"] ∅
              (module_ "example.com/dep" "v1.0.0" "/mod/example.com/dep@v1.0.0"))
      "expected 'package', found 'EOF'" ].


(** A package [z] that imports a package [a] of its own module and a
    package of another module. *)
Definition importsEarlierName : packages.Graph :=
  [ pkg "z" "example.com/m/z" ["/src/m/z/z.go"]
      {[ "example.com/m/a" := 1; "example.com/dep" := 2 ]} modM;
    pkg "a" "example.com/m/a" ["/src/m/a/a.go"] ∅ modM;
    pkg "dep" "example.com/dep" ["/mod/example.com/dep@v1.0.0/dep.go"] ∅
      (module_ "example.com/dep" "v1.0.0" "/mod/example.com/dep@v1.0.0") ].

(** A source host that knows every module. *)
Definition anyModule (path version : string) : Info + Error :=
  inl {| repoURL := "https://" +:+ path; commit := version |}.

Definition blobURL (remote : Info) (pathname : string) : string :=
  repoURL remote +:+ "/blob/" +:+ commit remote +:+ "/" +:+ pathname.

Definition library (licensePath : string) (members : list string)
    (path version dir : string) : Library :=
  {| LicensePath := licensePath; Packages := members;
     module := Some {| Path := path; Version := version; Dir := dir |} |}.



End Examples.

(** ** The rest of [licenses/library.go] *)

(** [l.Version()] *)
Definition Library_Version (l : Library) : string :=
  match module l with
  | Some m => Version m
  | None => ""
  end.

(** ** [report.go] *)

(** [strings.Contains(s, substr)] *)
Definition Contains (s substr : string) : bool :=
  match Cut substr s with
  | Some _ => true
  | None => false
  end.

(** [strings.Replace(s, old, new, 1)] *)
Definition Replace1 (s old new : string) : string :=
  match Cut old s with
  | Some (before, after) => before +:+ new +:+ after
  | None => s
  end.

Definition UNKNOWN : string := "Unknown".

Module libraryData.
Record t := {
  Name : string;
  ShortName : string;
  LicenseURL : string;
  LicenseName : string;
  Version : string;
  License : string
}.
End libraryData.

(** What [http.Get(url)] followed by [io.ReadAll(resp.Body)] comes to. *)
Inductive Response :=
| Body (b : string)
| GetFailed (e : Error)
| ReadFailed (e : Error).

(** What [reportMain] asks [klog] to print; [FromLicenses] is a message of
    the package [licenses]. *)
Inductive ReportDiag :=
| ErrIdentify (licensePath : string) (e : Error)
| ErrDownload (url : string) (e : Error)
| ErrReadBody (url : string) (e : Error)
| WarnLicenseURL (e : Error)
| FromLicenses (d : Diag).

(** The slice [reportData], the log, and the URLs asked of [http.Get]. *)
Record report := {
  reportData : list libraryData.t;
  printed : list ReportDiag;
  requested : list string
}.

Section Report.
Context {Classifier : Type}.
Variable GOROOT : string.
Variable Find : string → string → Classifier → string * option Error.
Variable rangeOrder :
  gmap string (list packages.Package) → list (string * list packages.Package).
(** [licenses.NewClassifier(confidenceThreshold)] *)
Variable NewClassifier : Classifier + Error.
(** [classifier.Identify(licensePath)]: the license name and the error *)
Variable Identify : Classifier → string → string * option Error.
Variable ModuleInfo : string → string → Info + Error.
Variable Info_FileURL : Info → string → string.
Variable httpGet : string → Response.
(** the flags [includeTests] and [ignore] *)
Variable includeTests : bool.
Variable ignore : list string.

(** The URL the license text is downloaded from. *)
Definition rawURL (url : string) : string :=
  if Contains url "github"
  then Replace1 (Replace1 url "github.com" "raw.githubusercontent.com") "blob/" ""
  else url.

(** The body of the loop over [libs]: the [libData] appended to
    [reportData] ([None] when the iteration ends in [continue]), the
    messages logged and the URLs requested. *)
Definition reportLibrary (classifier : Classifier) (lib : Library)
    : option libraryData.t * list ReportDiag * list string :=
  let version := Library_Version lib in
  let version := if decide (String.length version = 0) then UNKNOWN else version in
  if decide (LicensePath lib ≠ "") then
    let '(name, e) := Identify classifier (LicensePath lib) in
    let licenseName := match e with None => name | Some _ => UNKNOWN end in
    let log := match e with
               | None => []
               | Some e => [ErrIdentify (LicensePath lib) e]
               end in
    let '(url, e, flog) := FileURL ModuleInfo Info_FileURL (Some lib) (LicensePath lib) in
    let log := log ++ (FromLicenses <$> flog) in
    match e with
    | None =>
        let shortName := if Contains url "github"
                         then Replace1 (Name lib) "github.com/" ""
                         else Name lib in
        let libData license :=
          {| libraryData.Name := Name lib;
             libraryData.ShortName := shortName;
             libraryData.LicenseURL := url;
             libraryData.LicenseName := licenseName;
             libraryData.Version := version;
             libraryData.License := license |} in
        let url := rawURL url in
        if negb (Contains url "opensource.google") then
          match httpGet url with
          | GetFailed e => (None, log ++ [ErrDownload url e], [url])
          | ReadFailed e => (None, log ++ [ErrReadBody url e], [url])
          | Body b => (Some (libData b), log, [url])
          end
        else (Some (libData ("<PLACEHOLDER_" +:+ licenseName +:+ ">")), log, [])
    | Some e =>
        (Some {| libraryData.Name := Name lib;
                 libraryData.ShortName := Name lib;
                 libraryData.LicenseURL := UNKNOWN;
                 libraryData.LicenseName := licenseName;
                 libraryData.Version := version;
                 libraryData.License := UNKNOWN |},
         log ++ [WarnLicenseURL e], [])
    end
  else
    (Some {| libraryData.Name := Name lib;
             libraryData.ShortName := Name lib;
             libraryData.LicenseURL := UNKNOWN;
             libraryData.LicenseName := UNKNOWN;
             libraryData.Version := version;
             libraryData.License := UNKNOWN |}, [], []).

Definition reportStep (classifier : Classifier) (st : report) (lib : Library)
    : report :=
  let '(row, log, urls) := reportLibrary classifier lib in
  {| reportData := reportData st ++ option_list row;
     printed := printed st ++ log;
     requested := requested st ++ urls |}.

(** [reportMain] up to the call of [reportCSV] or [reportTemplate]: the
    error it returns before, if any, and what it has built, logged and
    requested by then.  [load] is the outcome of [packages.Load] on the
    arguments, [g] the store of the loaded packages.  [None]: the traversal
    ran out of fuel. *)
Definition reportMain (g : packages.Graph) (load : list Ptr * option Error)
    : option (option Error * report) :=
  match NewClassifier with
  | inr e => Some (Some e, {| reportData := []; printed := []; requested := [] |})
  | inl classifier =>
      match Libraries GOROOT Find rangeOrder classifier includeTests ignore g load with
      | None => None
      | Some r =>
          let st := {| reportData := []; printed := FromLicenses <$> logged r;
                       requested := [] |} in
          match err r with
          | Some e => Some (Some e, st)
          | None => Some (None, foldl (reportStep classifier) st (libraries r))
          end
      end
  end.

(** The library's license text cannot be downloaded. *)
Definition downloadFails (lib : Library) : bool :=
  bool_decide (LicensePath lib ≠ "") &&
  match FileURL ModuleInfo Info_FileURL (Some lib) (LicensePath lib) with
  | (url, None, _) =>
      negb (Contains (rawURL url) "opensource.google") &&
      match httpGet (rawURL url) with
      | Body _ => false
      | _ => true
      end
  | _ => false
  end.

End Report.

(** ** Notions used in the further properties *)

Section Filter_notions.
Variable GOROOT : string.
Variable includeTests : bool.
Variable ignoredPaths : list string.

(** The closure gets as far as looking for the module of [p]. *)
Definition inspected (p : packages.Package) : Prop :=
  packages.Errors p = [] ∧
  isStdLib GOROOT p = false ∧
  (includeTests = true → isTestBinary p = false) ∧
  (∀ i, i ∈ ignoredPaths → HasPrefix (packages.PkgPath p) i = false) ∧
  (packages.GoFiles p ≠ [] ∨ packages.CompiledGoFiles p ≠ [] ∨
   packages.OtherFiles p ≠ []).

End Filter_notions.

(** ** What the traversal logs *)

Section Log_notions.
Context {Classifier : Type}.
Variable GOROOT : string.
Variable Find : string → string → Classifier → string * option Error.
Variable classifier : Classifier.
Variable includeTests : bool.
Variable ignoredPaths : list string.

(** The messages the function literal passed to [packages.Visit] logs when
    it is called on [p]. *)
Definition traversalDiags (p : packages.Package) : list Diag :=
  match classify GOROOT Find classifier includeTests ignoredPaths p with
  | Errored | StdLib | TestBinary | Ignored => []
  | Empty | NoModule | Accepted _ =>
      (if bool_decide (0 < length (packages.OtherFiles p))
       then [WarnNonGoCode (packages.PkgPath p) (packages.OtherFiles p)]
       else []) ++
      match pkgDirOf p with
      | None => []
      | Some pkgDir =>
          match packages.Module' p with
          | None => [ErrNoModuleInfo (packages.PkgPath p)]
          | Some m =>
              match (Find pkgDir (packages.Dir m) classifier).2 with
              | Some e => [ErrFindLicense (packages.PkgPath p) e]
              | None => []
              end
          end
      end
  end.

End Log_notions.


(** * Properties *)

(** ** Strings and their order *)

Lemma lt_false_le (a b : string) : lt a b = false → String.le b a.
Proof.
  unfold lt, String.ltb, String.le, String.leb.
  rewrite (String.compare_antisym a b).
  destruct (String.compare b a); simpl; intros; done.
Qed.

Lemma lt_true_le (a b : string) : lt a b = true → String.le a b.
Proof.
  unfold lt, String.ltb, String.le, String.leb.
  destruct (String.compare a b); simpl; intros; done.
Qed.

Lemma lt_irrefl (a : string) : lt a a = false.
Proof.
  unfold lt, String.ltb.
  pose proof (String.compare_antisym a a) as H.
  by destruct (String.compare a a).
Qed.

Lemma slice_to_0 (s : string) : slice_to 0 s = "".
Proof. by destruct s. Qed.

Lemma sort_Strings_Permutation (l : list string) : sort_Strings l ≡ₚ l.
Proof. apply merge_sort_Permutation. Qed.

Lemma sort_Strings_Sorted (l : list string) : Sorted String.le (sort_Strings l).
Proof. apply (Sorted_merge_sort String.le). Qed.

Lemma sort_Strings_unique (l l' : list string) :
  l ≡ₚ l' → Sorted String.le l' → sort_Strings l = l'.
Proof.
  intros Hp Hs. apply (Sorted_unique String.le); [apply sort_Strings_Sorted|done|].
  by rewrite sort_Strings_Permutation.
Qed.

Lemma sort_Strings_idemp (l : list string) :
  sort_Strings (sort_Strings l) = sort_Strings l.
Proof. apply sort_Strings_unique; [done|apply sort_Strings_Sorted]. Qed.

Lemma sort_Strings_length (l : list string) : length (sort_Strings l) = length l.
Proof. by rewrite sort_Strings_Permutation. Qed.

(** ** The naming loop against the naming rule *)

Lemma ancestorLoop_rule (mn a b : string) (i last : nat) :
  ancestorLoop mn a b i last =
  match NamingRule.firstMismatch a b with
  | None => mn
  | Some k =>
      slice_to (match NamingRule.lastSlashBefore k a with
                | Some j => i + j
                | None => last
                end) mn
  end.
Proof.
  revert b i last. induction a as [|x a IH]; intros [|y b] i last; simpl; try done.
  destruct (Ascii.eqb x y) eqn:Hxy; simpl; [|done].
  rewrite IH. destruct (NamingRule.firstMismatch a b) as [k|]; simpl; [|done].
  destruct (NamingRule.lastSlashBefore k a) as [j|]; simpl.
  - f_equal. lia.
  - destruct (Ascii.eqb x "/"); [f_equal; lia|done].
Qed.

Lemma commonAncestor_rule (paths : list string) :
  (commonAncestor paths).1 = NamingRule.name paths.
Proof.
  destruct paths as [|p [|q paths]]; try done.
  unfold commonAncestor, NamingRule.name, NamingRule.truncateAtBoundary.
  cbn [fst]. rewrite ancestorLoop_rule.
  destruct (NamingRule.firstMismatch _ _) as [k|]; [|done].
  destruct (NamingRule.lastSlashBefore _ _); [done|apply slice_to_0].
Qed.



(** ** [Name] and its side effect *)

Lemma commonAncestor_snd (paths : list string) :
  (commonAncestor paths).2 =
  if bool_decide (2 ≤ length paths) then sort_Strings paths else paths.
Proof. by destruct paths as [|p [|q paths]]. Qed.

Lemma commonAncestor_again (paths : list string) :
  commonAncestor (commonAncestor paths).2 = commonAncestor paths.
Proof.
  destruct paths as [|p [|q paths]]; try done.
  pose proof (sort_Strings_idemp (p :: q :: paths)) as Hid.
  pose proof (sort_Strings_length (p :: q :: paths)) as Hlen.
  unfold commonAncestor at 2 3. cbn [snd].
  destruct (sort_Strings (p :: q :: paths)) as [|a [|b s]] eqn:Hs; try done.
  unfold commonAncestor. by rewrite Hid.
Qed.

Lemma Name_run_eq (l : Library) : Name_run l = (Name l, touch l).
Proof. unfold Name, touch. by destruct (Name_run l). Qed.

Lemma Name_unfold (l : Library) : Name l = (commonAncestor (Packages l)).1.
Proof. unfold Name, Name_run. by destruct (commonAncestor _). Qed.

Lemma touch_unfold (l : Library) :
  touch l = {| LicensePath := LicensePath l;
               Packages := (commonAncestor (Packages l)).2;
               module := module l |}.
Proof. unfold touch, Name_run. by destruct (commonAncestor _). Qed.

Lemma touch_Packages (l : Library) :
  Packages (touch l) =
  if bool_decide (2 ≤ length (Packages l)) then sort_Strings (Packages l)
  else Packages l.
Proof. by rewrite touch_unfold, <-commonAncestor_snd. Qed.

Lemma touch_Packages_Permutation (l : Library) : Packages (touch l) ≡ₚ Packages l.
Proof.
  rewrite touch_Packages. case_bool_decide; [apply sort_Strings_Permutation|done].
Qed.

Lemma touch_LicensePath (l : Library) : LicensePath (touch l) = LicensePath l.
Proof. by rewrite touch_unfold. Qed.

Lemma touch_module (l : Library) : module (touch l) = module l.
Proof. by rewrite touch_unfold. Qed.

Lemma Name_touch (l : Library) : Name (touch l) = Name l.
Proof.
  rewrite !Name_unfold, touch_unfold. cbn [Packages].
  by rewrite commonAncestor_again.
Qed.

Lemma touch_idemp (l : Library) : touch (touch l) = touch l.
Proof.
  rewrite (touch_unfold (touch l)), touch_LicensePath, touch_module.
  rewrite (touch_unfold l) at 1. cbn [Packages].
  by rewrite commonAncestor_again, <-touch_unfold.
Qed.

Lemma touch_short (l : Library) : length (Packages l) < 2 → touch l = l.
Proof.
  intros Hl. rewrite touch_unfold, commonAncestor_snd.
  rewrite bool_decide_false by lia. by destruct l.
Qed.

Lemma less_eq (x y : Library) :
  less x y = (lt (Name x) (Name y), (touch x, touch y)).
Proof. unfold less. by rewrite !Name_run_eq. Qed.

(** ** Insertion sort with and without the side effect *)

Lemma insertPure_Permutation (x : Library) (before : list Library) :
  insertPure x before ≡ₚ x :: before.
Proof.
  induction before as [|y rest IH]; simpl; [done|].
  destruct (lt _ _); [|done]. rewrite IH. apply perm_swap.
Qed.

Lemma insertLeft_insertPure (x y : Library) (rest : list Library) :
  Forall (λ l, touch l = l) rest →
  insertLeft x (y :: rest) = insertPure (touch x) (touch y :: rest).
Proof.
  revert x y. induction rest as [|z rest IH]; intros x y Hrest.
  - simpl. rewrite less_eq, !Name_touch. by destruct (lt _ _).
  - inversion_clear Hrest as [|?? Hz Hrest'].
    change (insertLeft x (y :: z :: rest)) with
      (let '(isLess, (x', y')) := less x y in
       if isLess then y' :: insertLeft x' (z :: rest) else x' :: y' :: z :: rest).
    rewrite less_eq. cbn [insertPure]. rewrite !Name_touch.
    destruct (lt (Name x) (Name y)); [|done].
    rewrite IH by done. rewrite touch_idemp, Hz. cbn [insertPure].
    by rewrite Name_touch.
Qed.

Lemma sort_Slice_sortPure (x y : Library) (rest : list Library) :
  sort_Slice (x :: y :: rest) = sortPure (touch <$> x :: y :: rest).
Proof.
  unfold sort_Slice, sortPure. f_equal.
  assert (∀ acc, acc ≠ [] → Forall (λ l, touch l = l) acc →
            foldl (λ before x, insertLeft x before) acc rest =
            foldl (λ before x, insertPure x before) acc (touch <$> rest)) as Hfold.
  { induction rest as [|z rest IH]; intros acc Hne Hacc; [done|].
    destruct acc as [|a acc]; [done|]. inversion Hacc as [|?? Ha Hacc']; subst.
    cbn [foldl fmap list_fmap].
    rewrite insertLeft_insertPure by done. rewrite Ha. apply IH.
    - intros Hnil. apply (f_equal length) in Hnil.
      rewrite insertPure_Permutation in Hnil. done.
    - rewrite insertPure_Permutation. constructor; [apply touch_idemp|done]. }
  cbn [foldl fmap list_fmap].
  change (insertLeft x []) with [x].
  rewrite insertLeft_insertPure by constructor.
  change (insertPure (touch x) []) with [touch x].
  apply Hfold.
  - intros Hnil. apply (f_equal length) in Hnil.
    rewrite insertPure_Permutation in Hnil. done.
  - rewrite insertPure_Permutation. repeat constructor; apply touch_idemp.
Qed.

Global Instance name_le_trans : Transitive name_le.
Proof. intros a b c. unfold name_le. apply transitivity. Qed.

Lemma HdRel_insertPure (x y : Library) (rest : list Library) :
  HdRel (flip name_le) y rest → name_le x y →
  HdRel (flip name_le) y (insertPure x rest).
Proof.
  intros Hhd Hxy. destruct rest as [|z rest]; simpl; [by constructor|].
  destruct (lt _ _); [|by constructor].
  constructor. by inversion Hhd.
Qed.

Lemma insertPure_Sorted (x : Library) (before : list Library) :
  Sorted (flip name_le) before → Sorted (flip name_le) (insertPure x before).
Proof.
  induction before as [|y rest IH]; simpl; intros Hs.
  - by repeat constructor.
  - inversion_clear Hs as [|?? Hrest Hhd].
    destruct (lt (Name x) (Name y)) eqn:Hlt.
    + constructor; [by apply IH|].
      apply HdRel_insertPure; [done|]. by apply lt_true_le.
    + constructor; [by constructor|].
      constructor. by apply lt_false_le.
Qed.

Lemma foldl_insertPure_Permutation (acc l : list Library) :
  foldl (λ before x, insertPure x before) acc l ≡ₚ l ++ acc.
Proof.
  revert acc. induction l as [|x l IH]; intros acc; simpl; [done|].
  rewrite IH, insertPure_Permutation. by rewrite Permutation_middle.
Qed.

Lemma foldl_insertPure_Sorted (acc l : list Library) :
  Sorted (flip name_le) acc →
  Sorted (flip name_le) (foldl (λ before x, insertPure x before) acc l).
Proof.
  revert acc. induction l as [|x l IH]; intros acc Hs; simpl; [done|].
  by apply IH, insertPure_Sorted.
Qed.

Lemma sortPure_Permutation (l : list Library) : sortPure l ≡ₚ l.
Proof.
  unfold sortPure. rewrite reverse_Permutation, foldl_insertPure_Permutation.
  by rewrite app_nil_r.
Qed.

Lemma sortPure_Sorted (l : list Library) : Sorted name_le (sortPure l).
Proof.
  unfold sortPure.
  apply (Sorted_reverse (flip name_le)), foldl_insertPure_Sorted. constructor.
Qed.

(** The list handed back by [sort.Slice] is in non-decreasing order of
    [Name]. *)
Lemma sort_Slice_Sorted (l : list Library) : Sorted name_le (sort_Slice l).
Proof.
  destruct l as [|x [|y l]].
  - constructor.
  - by repeat constructor.
  - rewrite sort_Slice_sortPure. apply sortPure_Sorted.
Qed.

(** With two libraries or more, [Name()] has run on each of them. *)
Lemma sort_Slice_many (l : list Library) :
  2 ≤ length l → sort_Slice l ≡ₚ touch <$> l.
Proof.
  destruct l as [|x [|y l]]; simpl; try lia. intros _.
  rewrite sort_Slice_sortPure. apply sortPure_Permutation.
Qed.

(** With fewer, [less] is never called. *)
Lemma sort_Slice_few (l : list Library) : length l < 2 → sort_Slice l = l.
Proof. destruct l as [|x [|y l]]; simpl; try lia; done. Qed.

Lemma sort_Slice_touch_Permutation (l : list Library) :
  touch <$> sort_Slice l ≡ₚ touch <$> l.
Proof.
  destruct (decide (2 ≤ length l)) as [Hl|Hl].
  - rewrite sort_Slice_many by done.
    rewrite <-list_fmap_compose.
    erewrite list_fmap_ext; [done|]. intros ???. apply touch_idemp.
  - by rewrite sort_Slice_few by lia.
Qed.

(** ** [packages.Visit]: termination and the set of visited packages *)

Section Order_facts.
Variable g : packages.Graph.
Variable descend : packages.Package → bool.

Local Abbreviation pre := (tracePre descend).
Local Abbreviation valid x := (is_Some (g !! x)).

Lemma elem_of_validSet (x : Ptr) : x ∈ validSet g ↔ valid x.
Proof.
  unfold validSet. rewrite elem_of_list_to_set, elem_of_seq, lookup_lt_is_Some. lia.
Qed.

Lemma size_validSet : size (validSet g) = length g.
Proof.
  unfold validSet. rewrite size_list_to_set by apply NoDup_seq.
  apply length_seq.
Qed.

Lemma rtc_edge_valid (r x : Ptr) : rtc (edge g descend) r x → valid x → valid r.
Proof.
  intros Hrtc Hx. destruct Hrtc as [|r y z (pa & path & Hr & _) _]; [done|].
  by eexists.
Qed.

Lemma grows_refl (start : Ptr → Prop) vs : grows g descend start vs vs.
Proof.
  exists []. split_and!.
  - by rewrite app_nil_r.
  - set_solver.
  - constructor.
  - intros x Hx. by apply elem_of_nil in Hx.
  - intros x ??? Hx. by apply elem_of_nil in Hx.
Qed.

Lemma grows_subseteq (start : Ptr → Prop) vs vs' :
  grows g descend start vs vs' → vs.1 ⊆ vs'.1.
Proof. intros (new & _ & -> & _). set_solver. Qed.

Lemma grows_trans (start : Ptr → Prop) vs1 vs2 vs3 :
  grows g descend start vs1 vs2 → grows g descend start vs2 vs3 →
  grows g descend start vs1 vs3.
Proof.
  intros (n1 & Ht1 & Hs1 & Hnd1 & Hn1 & Hc1) (n2 & Ht2 & Hs2 & Hnd2 & Hn2 & Hc2).
  exists (n1 ++ n2). split_and!.
  - by rewrite Ht2, Ht1, app_assoc.
  - rewrite Hs2, Hs1. set_solver.
  - apply NoDup_app. split_and!; [done| |done].
    intros x Hx1 Hx2. destruct (Hn2 x Hx2) as [Hnot _].
    apply Hnot. rewrite Hs1. set_solver.
  - intros x [Hx|Hx]%elem_of_app; [by apply Hn1|].
    destruct (Hn2 x Hx) as (Hnot & ? & ?). split_and!; [|done..].
    intros Hin. apply Hnot. rewrite Hs1. set_solver.
  - intros x p path q [Hx|Hx]%elem_of_app ????.
    + rewrite Hs2. apply elem_of_union_l. by eapply Hc1.
    + by eapply Hc2.
Qed.

Lemma grows_start (start start' : Ptr → Prop) vs vs' :
  (∀ r x, start r → rtc (edge g descend) r x → valid x →
          ∃ r', start' r' ∧ rtc (edge g descend) r' x) →
  grows g descend start vs vs' → grows g descend start' vs vs'.
Proof.
  intros Hst (new & ? & ? & ? & Hn & ?). exists new. split_and!; try done.
  intros x Hx. destruct (Hn x Hx) as (? & ? & r & ? & ?).
  split_and!; [done..|]. by eapply Hst.
Qed.

Lemma unseen_mono (seen seen' : gset Ptr) :
  seen ⊆ seen' → size (validSet g ∖ seen') ≤ size (validSet g ∖ seen).
Proof. intros. apply subseteq_size. set_solver. Qed.

Lemma unseen_enter (seen : gset Ptr) (x : Ptr) :
  valid x → x ∉ seen →
  size (validSet g ∖ ({[x]} ∪ seen)) < size (validSet g ∖ seen).
Proof.
  intros Hv Hx. apply subset_size. apply elem_of_validSet in Hv.
  apply strict_spec_alt. split; [set_solver|].
  intros Heq. set_solver.
Qed.

(** A loop that visits the targets of a list one after the other. *)
Lemma forEach_visit_grows {A} (fuel : nat) (tgt : A → option Ptr) (xs : list A) :
  (∀ pkg vs, size (validSet g ∖ vs.1) ≤ fuel →
     ∃ vs', visit g pre fuel pkg vs = Some vs' ∧
            grows g descend (eq pkg) vs vs' ∧ (valid pkg → pkg ∈ vs'.1)) →
  ∀ vs, size (validSet g ∖ vs.1) ≤ fuel →
    ∃ vs', forEach (λ x vs', match tgt x with
                             | Some q => visit g pre fuel q vs'
                             | None => Some vs'
                             end) xs vs = Some vs' ∧
           grows g descend (λ r, ∃ x, x ∈ xs ∧ tgt x = Some r) vs vs' ∧
           (∀ x q, x ∈ xs → tgt x = Some q → valid q → q ∈ vs'.1).
Proof.
  intros Hvisit. induction xs as [|x xs IH]; intros vs Hfuel.
  - exists vs. split_and!; [done|apply grows_refl|].
    intros ?? Hx. by apply elem_of_nil in Hx.
  - cbn [forEach]. destruct (tgt x) as [q|] eqn:Hq.
    + destruct (Hvisit q vs Hfuel) as (vs1 & -> & Hg1 & Hq1).
      destruct (IH vs1) as (vs2 & -> & Hg2 & Hq2).
      { etrans; [apply unseen_mono; by eapply grows_subseteq|done]. }
      exists vs2. split_and!; [done| |].
      * eapply grows_trans.
        -- eapply grows_start; [|exact Hg1].
           intros r y <- ??. exists q. split; [|done]. exists x. split; [left|done].
        -- eapply grows_start; [|exact Hg2].
           intros r y (x' & ? & ?) ??. exists r. split; [|done].
           exists x'. split; [by right|done].
      * intros x' q' [->|Hx']%elem_of_cons Hq' Hv.
        -- assert (q' = q) as -> by congruence.
           eapply grows_subseteq; [exact Hg2|]. by apply Hq1.
        -- by eapply Hq2.
    + destruct (IH vs Hfuel) as (vs2 & -> & Hg2 & Hq2).
      exists vs2. split_and!; [done| |].
      * eapply grows_start; [|exact Hg2].
        intros r y (x' & ? & ?) ??. exists r. split; [|done].
        exists x'. split; [by right|done].
      * intros x' q' [->|Hx']%elem_of_cons Hq' Hv; [congruence|by eapply Hq2].
Qed.

Lemma elem_of_import_paths (p : packages.Package) (path : string) :
  path ∈ sort_Strings (map_to_list (packages.Imports p)).*1 ↔
  is_Some (packages.Imports p !! path).
Proof.
  rewrite sort_Strings_Permutation, list_elem_of_fmap. split.
  - intros ([k q] & -> & Hin). apply elem_of_map_to_list in Hin. by eexists.
  - intros [q Hq]. exists (path, q). split; [done|]. by apply elem_of_map_to_list.
Qed.

(** One call of the closure [visit]: it returns, and it adds to the trace
    exactly the packages newly reached from [pkg]. *)
Lemma visit_grows (fuel : nat) (pkg : Ptr) (vs : gset Ptr * list Ptr) :
  size (validSet g ∖ vs.1) ≤ fuel →
  ∃ vs', visit g pre fuel pkg vs = Some vs' ∧
         grows g descend (eq pkg) vs vs' ∧ (valid pkg → pkg ∈ vs'.1).
Proof.
  revert pkg vs. induction fuel as [|fuel IH]; intros pkg vs Hfuel.
  - exists vs. cbn [visit]. destruct (decide (pkg ∈ vs.1)) as [Hin|Hnot].
    { split_and!; [done|apply grows_refl|done]. }
    destruct (g !! pkg) as [p|] eqn:Hp.
    + pose proof (unseen_enter vs.1 pkg) as Hlt.
      rewrite Hp in Hlt. specialize (Hlt (mk_is_Some _ _ eq_refl) Hnot). lia.
    + split_and!; [done|apply grows_refl|]. by intros [? ?].
  - cbn [visit]. destruct (decide (pkg ∈ vs.1)) as [Hin|Hnot].
    { exists vs. split_and!; [done|apply grows_refl|done]. }
    destruct (g !! pkg) as [p|] eqn:Hp.
    2:{ exists vs. split_and!; [done|apply grows_refl|]. by intros [? ?]. }
    assert (valid pkg) as Hv by (by rewrite Hp).
    pose proof (unseen_enter vs.1 pkg Hv Hnot) as Hlt.
    unfold tracePre at 1. destruct (descend p) eqn:Hd.
    + destruct (forEach_visit_grows fuel (λ path, packages.Imports p !! path)
                  (sort_Strings (map_to_list (packages.Imports p)).*1) IH
                  ({[pkg]} ∪ vs.1, vs.2 ++ [pkg]))
        as (vs' & -> & (new & Ht & Hs & Hnd & Hn & Hc) & Himp); [simpl; lia|].
      simpl in Ht, Hs, Hn. exists vs'. split_and!; [done| |rewrite Hs; set_solver].
      exists (pkg :: new). split_and!.
      * by rewrite Ht, <-app_assoc.
      * rewrite Hs. set_solver.
      * constructor; [|done]. intros Hin. destruct (Hn _ Hin) as [Hnot' _].
        set_solver.
      * intros x [->|Hx]%elem_of_cons; [by split_and!; [| |exists pkg]|].
        destruct (Hn x Hx) as (Hnot' & Hvx & r & (path & _ & Hr) & Hrtc).
        split_and!; [set_solver|done|]. exists pkg. split; [done|].
        eapply rtc_l; [|exact Hrtc]. exists p, path. split_and!; try done.
        by eapply rtc_edge_valid.
      * intros x p' path q [->|Hx]%elem_of_cons Hp' Hd' Hq Hvq.
        -- assert (p' = p) as -> by congruence.
           eapply Himp; [|done..]. apply elem_of_import_paths. by eexists.
        -- by eapply Hc.
    + exists ({[pkg]} ∪ vs.1, vs.2 ++ [pkg]). split_and!; [done| |set_solver].
      exists [pkg]. split_and!; simpl.
      * done.
      * set_solver.
      * apply NoDup_singleton.
      * intros x ->%list_elem_of_singleton. by split_and!; [| |exists pkg].
      * intros x p' path q ->%list_elem_of_singleton Hp' Hd' _ _. congruence.
Qed.

(** [packages.Visit] returns: the fuel it starts with is enough. *)
Lemma Visit_trace (rootPkgs : list Ptr) :
  ∃ seen t, Visit g pre rootPkgs [] = Some (seen, t) ∧
            grows g descend (λ r, r ∈ rootPkgs) (∅, []) (seen, t) ∧
            (∀ r, r ∈ rootPkgs → valid r → r ∈ seen).
Proof.
  destruct (forEach_visit_grows (length g) Some rootPkgs
              (λ pkg vs, visit_grows (length g) pkg vs) (∅, []))
    as ([seen t] & Hrun & Hg & Hroots).
  { simpl. rewrite <-size_validSet. apply subseteq_size. set_solver. }
  exists seen, t. split_and!.
  - exact Hrun.
  - eapply grows_start; [|exact Hg]. intros r x (r' & ? & [= ->]) ??. by exists r.
  - intros r ??. by eapply Hroots.
Qed.

Lemma visitOrder_Visit (rootPkgs : list Ptr) :
  ∃ seen, Visit g pre rootPkgs [] = Some (seen, visitOrder g descend rootPkgs).
Proof.
  destruct (Visit_trace rootPkgs) as (seen & t & Hrun & _).
  exists seen. unfold visitOrder. by rewrite Hrun.
Qed.

(** Every package is visited at most once. *)
Lemma visitOrder_NoDup (rootPkgs : list Ptr) : NoDup (visitOrder g descend rootPkgs).
Proof.
  destruct (Visit_trace rootPkgs) as (seen & t & Hrun & (new & Ht & _ & Hnd & _) & _).
  unfold visitOrder. rewrite Hrun. simpl in Ht. by subst t.
Qed.

(** The visited packages are those reachable from the roots through
    packages whose imports the traversal goes on to. *)
Lemma elem_of_visitOrder (rootPkgs : list Ptr) (x : Ptr) :
  x ∈ visitOrder g descend rootPkgs ↔ reachable g descend rootPkgs x.
Proof.
  destruct (Visit_trace rootPkgs)
    as (seen & t & Hrun & (new & Ht & Hs & Hnd & Hn & Hc) & Hroots).
  unfold visitOrder. rewrite Hrun. simpl in Ht, Hs, Hc, Hn. subst t.
  assert (∀ y, y ∈ seen ↔ y ∈ new) as Hseen by (rewrite Hs; set_solver).
  split.
  - intros Hx. destruct (Hn x Hx) as (_ & Hv & r & Hr & Hrtc).
    exists r. split_and!; [done| |done]. by eapply rtc_edge_valid.
  - intros (r & Hr & Hv & Hrtc). apply Hseen.
    assert (r ∈ seen) as Hrs by by apply Hroots.
    clear Hr Hv. induction Hrtc as [|a b c (pa & path & Ha & Hd & Hb & Hvb) _ IH];
      [done|].
    apply IH. eapply Hc; [|done..]. by apply Hseen.
Qed.

Lemma visitOrder_valid (rootPkgs : list Ptr) (x : Ptr) :
  x ∈ visitOrder g descend rootPkgs → valid x.
Proof.
  intros (r & _ & Hv & Hrtc)%elem_of_visitOrder.
  destruct (rtc_inv_r _ _ Hrtc) as [->|(y & _ & (? & ? & _ & _ & _ & ?))]; done.
Qed.

End Order_facts.

(** ** Traversals in step *)

Section Sim.
Context {St1 St2 : Type}.
Variable g : packages.Graph.
Variable pre1 : Ptr → packages.Package → St1 → bool * St1.
Variable pre2 : Ptr → packages.Package → St2 → bool * St2.
Variable R : St1 → St2 → Prop.
Hypothesis pre_rel : ∀ ptr p s1 s2,
  g !! ptr = Some p → R s1 s2 →
  (pre1 ptr p s1).1 = (pre2 ptr p s2).1 ∧ R (pre1 ptr p s1).2 (pre2 ptr p s2).2.

Lemma forEach_sim {A} (f1 : A → gset Ptr * St1 → option (gset Ptr * St1))
    (f2 : A → gset Ptr * St2 → option (gset Ptr * St2)) (xs : list A) :
  (∀ x v1 v2, visitRel R (Some v1) (Some v2) → visitRel R (f1 x v1) (f2 x v2)) →
  ∀ v1 v2, visitRel R (Some v1) (Some v2) →
           visitRel R (forEach f1 xs v1) (forEach f2 xs v2).
Proof.
  intros Hf. induction xs as [|x xs IH]; intros v1 v2 Hv; [done|].
  cbn [forEach]. specialize (Hf x v1 v2 Hv).
  destruct (f1 x v1) as [[??]|], (f2 x v2) as [[??]|]; try done.
  by apply IH.
Qed.

Lemma visit_sim (fuel : nat) (pkg : Ptr) v1 v2 :
  visitRel R (Some v1) (Some v2) →
  visitRel R (visit g pre1 fuel pkg v1) (visit g pre2 fuel pkg v2).
Proof.
  revert pkg v1 v2. induction fuel as [|fuel IH];
    intros pkg [seen1 s1] [seen2 s2] [Hseen HR]; simpl in Hseen; subst seen2;
    cbn [visit fst snd]; destruct (decide (pkg ∈ seen1)); try done;
    destruct (g !! pkg) as [p|] eqn:Hp; try done.
  destruct (pre_rel pkg p s1 s2 Hp HR) as [Hd HR'].
  destruct (pre1 pkg p s1) as [d1 s1'], (pre2 pkg p s2) as [d2 s2'].
  simpl in Hd, HR'. subst d2. destruct d1; [|done].
  apply forEach_sim; [|done].
  intros path w1 w2 Hw. destruct (packages.Imports p !! path); [by apply IH|done].
Qed.

Lemma Visit_sim (rootPkgs : list Ptr) (s1 : St1) (s2 : St2) :
  R s1 s2 → visitRel R (Visit g pre1 rootPkgs s1) (Visit g pre2 rootPkgs s2).
Proof.
  intros HR. apply forEach_sim; [|done].
  intros. by apply visit_sim.
Qed.

End Sim.

(** ** The filter, package by package *)

Section Filter_facts.
Context {Classifier : Type}.
Variable GOROOT : string.
Variable Find : string → string → Classifier → string * option Error.
Variable classifier : Classifier.
Variable includeTests : bool.
Variable ignoredPaths : list string.

Local Abbreviation visitPackage' :=
  (visitPackage GOROOT Find classifier includeTests ignoredPaths).
Local Abbreviation classify' :=
  (classify GOROOT Find classifier includeTests ignoredPaths).
Local Abbreviation descends' :=
  (descends GOROOT Find classifier includeTests ignoredPaths).
Local Abbreviation licenseOf' :=
  (licenseOf GOROOT Find classifier includeTests ignoredPaths).
Local Abbreviation record' :=
  (record GOROOT Find classifier includeTests ignoredPaths).
Local Abbreviation visited' :=
  (visited GOROOT Find classifier includeTests ignoredPaths).
Local Abbreviation survivors' :=
  (survivors GOROOT Find classifier includeTests ignoredPaths).
Local Abbreviation scanned' :=
  (scanned GOROOT Find classifier includeTests ignoredPaths).

Local Ltac by_cases :=
  unfold record, visitPackage, descends, licenseOf, classify, say;
  repeat (case_match; simplify_eq/=; try done).

Lemma visitPackage_descends (ptr : Ptr) (p : packages.Package) (s : scan) :
  (visitPackage' ptr p s).1 = descends' p.
Proof. by_cases. Qed.

Lemma visitPackage_ptr (ptr : Ptr) (p : packages.Package) (s : scan) :
  (visitPackage' ptr p s).2 = record' p s.
Proof. done. Qed.

Lemma record_pkgsByLicense (p : packages.Package) (s : scan) :
  pkgsByLicense (record' p s) =
  match licenseOf' p with
  | Some licensePath =>
      <[licensePath := default [] (pkgsByLicense s !! licensePath) ++ [p]]>
        (pkgsByLicense s)
  | None => pkgsByLicense s
  end.
Proof. by_cases. Qed.

Lemma record_pkgErrorOccurred (p : packages.Package) (s : scan) :
  pkgErrorOccurred (record' p s) =
  pkgErrorOccurred s || bool_decide (classify' p = Errored).
Proof. by_cases; by rewrite ?orb_false_r, ?orb_true_r. Qed.

Lemma record_otherErrorOccurred (p : packages.Package) (s : scan) :
  otherErrorOccurred (record' p s) =
  otherErrorOccurred s || bool_decide (classify' p = NoModule).
Proof. by_cases; by rewrite ?orb_false_r, ?orb_true_r. Qed.

Lemma foldl_record_pkgErrorOccurred (ps : list packages.Package) (s : scan) :
  pkgErrorOccurred (foldl (λ s p, record' p s) s ps) =
  pkgErrorOccurred s || bool_decide (Exists (λ p, classify' p = Errored) ps).
Proof.
  revert s. induction ps as [|p ps IH]; intros s; cbn [foldl].
  - rewrite bool_decide_false; [by rewrite orb_false_r|]. by intros ?%Exists_nil.
  - rewrite IH, record_pkgErrorOccurred, <-orb_assoc. f_equal.
    apply eq_true_iff_eq. rewrite orb_true_iff, !bool_decide_eq_true.
    by rewrite Exists_cons.
Qed.

Lemma foldl_record_otherErrorOccurred (ps : list packages.Package) (s : scan) :
  otherErrorOccurred (foldl (λ s p, record' p s) s ps) =
  otherErrorOccurred s || bool_decide (Exists (λ p, classify' p = NoModule) ps).
Proof.
  revert s. induction ps as [|p ps IH]; intros s; cbn [foldl].
  - rewrite bool_decide_false; [by rewrite orb_false_r|]. by intros ?%Exists_nil.
  - rewrite IH, record_otherErrorOccurred, <-orb_assoc. f_equal.
    apply eq_true_iff_eq. rewrite orb_true_iff, !bool_decide_eq_true.
    by rewrite Exists_cons.
Qed.

Lemma foldl_record_pkgsByLicense (ps : list packages.Package) (s : scan) :
  pkgsByLicense (foldl (λ s p, record' p s) s ps) =
  foldl (λ m kp, <[kp.1 := default [] (m !! kp.1) ++ [kp.2]]> m)
        (pkgsByLicense s)
        (omap (λ p, (λ licensePath, (licensePath, p)) <$> licenseOf' p) ps).
Proof.
  revert s. induction ps as [|p ps IH]; intros s; cbn [foldl omap list_omap]; [done|].
  rewrite IH, record_pkgsByLicense. by destruct (licenseOf' p).
Qed.

Variable g : packages.Graph.
Variable rootPkgs : list Ptr.

Lemma pkgsByLicense_scanned :
  pkgsByLicense (scanned' g rootPkgs) = group (survivors' g rootPkgs).
Proof. unfold scanned. by rewrite foldl_record_pkgsByLicense. Qed.

(** The traversal of [Libraries] returns, having called the closure on
    the packages of [visited], in that order. *)
Lemma Visit_scanned :
  ∃ seen, Visit g visitPackage' rootPkgs scan0 = Some (seen, scanned' g rootPkgs).
Proof.
  destruct (visitOrder_Visit g descends' rootPkgs) as [seen Hrun].
  pose proof (Visit_sim g visitPackage' (tracePre descends')
                (λ s t, s = foldl (λ s p, record' p s) scan0 (omap (λ x, g !! x) t)))
    as Hsim.
  specialize (Hsim) with (rootPkgs := rootPkgs) (s1 := scan0) (s2 := []).
  rewrite Hrun in Hsim. unfold visitRel in Hsim.
  destruct (Visit g visitPackage' rootPkgs scan0) as [[seen' s]|].
  - destruct Hsim as [-> ->]; [|done|by exists seen].
    intros ptr p s1 s2 Hp ->. split; [apply visitPackage_descends|].
    rewrite visitPackage_ptr. unfold tracePre. cbn [snd].
    rewrite omap_app, foldl_app. cbn [omap list_omap]. by rewrite Hp.
  - exfalso. apply Hsim; [|done].
    intros ptr p s1 s2 Hp ->. split; [apply visitPackage_descends|].
    rewrite visitPackage_ptr. unfold tracePre. cbn [snd].
    rewrite omap_app, foldl_app. cbn [omap list_omap]. by rewrite Hp.
Qed.

End Filter_facts.

(** ** The loop over [pkgsByLicense] *)

Lemma foldl_emitBucket (roots : list packages.Package)
    (order : list (string * list packages.Package)) (acc : list Library * list Diag) :
  foldl (emitBucket roots) acc order =
  (acc.1 ++ (order ≫= bucketLibraries roots), acc.2 ++ (order ≫= bucketDiags roots)).
Proof.
  revert acc. induction order as [|[k ps] order IH]; intros [libs log]; cbn [foldl].
  - by rewrite !app_nil_r.
  - rewrite IH. unfold emitBucket, bucketLibraries, bucketDiags.
    rewrite !bind_cons. cbn [fst snd].
    destruct (decide (k = "")); cbn [fst snd].
    + by rewrite <-app_assoc.
    + destruct (resolveVendored _ _). cbn [fst snd]. by rewrite <-!app_assoc.
Qed.

Section Libraries_facts.
Context {Classifier : Type}.
Variable GOROOT : string.
Variable Find : string → string → Classifier → string * option Error.
Variable rangeOrder :
  gmap string (list packages.Package) → list (string * list packages.Package).
Variable classifier : Classifier.
Variable includeTests : bool.
Variable ignoredPaths : list string.
Variable g : packages.Graph.
Variable rootPkgs : list Ptr.

Local Abbreviation scanned' :=
  (scanned GOROOT Find classifier includeTests ignoredPaths g rootPkgs).
Local Abbreviation Libraries' :=
  (Libraries GOROOT Find rangeOrder classifier includeTests ignoredPaths g).

(** [Libraries] always returns, and what it returns is determined by the
    packages the traversal visits and by the order of the [range]. *)
Lemma Libraries_eq :
  Libraries' (rootPkgs, None) =
  Some (if pkgErrorOccurred scanned' then
          {| libraries := []; err := Some (PackagesError rootPkgs);
             logged := klog scanned' |}
        else if otherErrorOccurred scanned' then
          {| libraries := []; err := Some DependencyErrors;
             logged := klog scanned' |}
        else
          let roots := omap (λ r, g !! r) rootPkgs in
          let order := rangeOrder (pkgsByLicense scanned') in
          {| libraries := sort_Slice (order ≫= bucketLibraries roots);
             err := None;
             logged := klog scanned' ++ (order ≫= bucketDiags roots) |}).
Proof.
  unfold Libraries.
  destruct (Visit_scanned GOROOT Find classifier includeTests ignoredPaths g rootPkgs)
    as [seen ->].
  destruct (pkgErrorOccurred _); [done|].
  destruct (otherErrorOccurred _); [done|].
  by rewrite foldl_emitBucket.
Qed.

End Libraries_facts.

(** ** Grouping by license path *)

Lemma group_snoc (kps : list (string * packages.Package)) (k : string)
    (p : packages.Package) :
  group (kps ++ [(k, p)]) = <[k := default [] (group kps !! k) ++ [p]]> (group kps).
Proof. unfold group. by rewrite foldl_snoc. Qed.

(** The bucket of [k] holds the packages put under [k], in the order in
    which they came; there is no empty bucket. *)
Lemma group_lookup (kps : list (string * packages.Package)) (k : string) :
  group kps !! k =
  let bucket := (filter (λ kp, kp.1 = k) kps).*2 in
  if decide (bucket = []) then None else Some bucket.
Proof.
  induction kps as [|[k' p] kps IH] using rev_ind; [done|].
  rewrite group_snoc, filter_app, fmap_app. cbn zeta in *.
  destruct (decide (k' = k)) as [->|Hne].
  - rewrite lookup_insert_eq, filter_cons_True, filter_nil by done.
    rewrite decide_False by (by intros [_ ?]%app_eq_nil).
    rewrite IH. by destruct (decide _) as [->|].
  - rewrite lookup_insert_ne, filter_cons_False, filter_nil by done.
    by rewrite app_nil_r.
Qed.

Lemma group_lookup_Some (kps : list (string * packages.Package)) (k : string)
    (ps : list packages.Package) :
  group kps !! k = Some ps ↔ ps = (filter (λ kp, kp.1 = k) kps).*2 ∧ ps ≠ [].
Proof.
  rewrite group_lookup. cbn zeta. destruct (decide _) as [Heq|Hne].
  - split; [done|]. intros [-> ?]. done.
  - split; [by intros [= <-]|]. by intros [-> _].
Qed.

Lemma group_concat (kps : list (string * packages.Package)) :
  map_to_list (group kps) ≫= snd ≡ₚ kps.*2.
Proof.
  induction kps as [|[k p] kps IH] using rev_ind.
  - unfold group. cbn [foldl]. by rewrite map_to_list_empty.
  - rewrite group_snoc, fmap_app. cbn [fmap list_fmap snd].
    destruct (group kps !! k) as [l|] eqn:Hk; cbn [default].
    + rewrite <-insert_delete_eq, map_to_list_insert by apply lookup_delete_eq.
      rewrite <-(map_to_list_delete _ _ _ Hk) in IH.
      rewrite bind_cons in *. cbn [snd] in *. rewrite <-IH.
      unfold id. rewrite <-!app_assoc. f_equiv. apply Permutation_app_comm.
    + rewrite map_to_list_insert by done. rewrite bind_cons. cbn [snd app].
      rewrite IH. by rewrite <-Permutation_cons_append.
Qed.

(** ** The library of a bucket *)

Lemma newModule_Some (m : packages.Module_) : is_Some (newModule (Some m)).
Proof. by eexists. Qed.

Lemma bucketLibrary_foldl (pkgs : list packages.Package) (lib : Library) :
  foldl (λ lib pkg,
           {| LicensePath := LicensePath lib;
              Packages := Packages lib ++ [packages.PkgPath pkg];
              module := match module lib, packages.Module' pkg with
                        | None, Some m => newModule (Some m)
                        | cur, _ => cur
                        end |}) lib pkgs =
  {| LicensePath := LicensePath lib;
     Packages := Packages lib ++ (packages.PkgPath <$> pkgs);
     module := match module lib with
               | Some m => Some m
               | None => firstModule pkgs
               end |}.
Proof.
  revert lib. induction pkgs as [|p pkgs IH]; intros [lp ps m]; cbn [foldl].
  - cbn. rewrite app_nil_r. by destruct m.
  - rewrite IH. cbn. rewrite <-app_assoc. f_equal.
    destruct m, (packages.Module' p); done.
Qed.

(** The members of a bucket's library are the bucket's import paths in the
    order of the bucket, and its module is that of the first package with
    one. *)
Lemma bucketLibrary_eq (licensePath : string) (pkgs : list packages.Package) :
  bucketLibrary licensePath pkgs =
  {| LicensePath := licensePath;
     Packages := packages.PkgPath <$> pkgs;
     module := firstModule pkgs |}.
Proof. unfold bucketLibrary. by rewrite bucketLibrary_foldl. Qed.

Lemma resolveVendored_Packages (roots : list packages.Package) (lib : Library) :
  Packages (resolveVendored roots lib).1 = Packages lib.
Proof. unfold resolveVendored. by repeat case_match. Qed.

Lemma resolveVendored_LicensePath (roots : list packages.Package) (lib : Library) :
  LicensePath (resolveVendored roots lib).1 = LicensePath lib.
Proof. unfold resolveVendored. by repeat case_match. Qed.

Lemma bucketLibraries_Packages (roots : list packages.Package)
    (entry : string * list packages.Package) :
  bucketLibraries roots entry ≫= Packages = packages.PkgPath <$> entry.2.
Proof.
  destruct entry as [k ps]. unfold bucketLibraries. cbn [fst snd].
  destruct (decide (k = "")).
  - induction ps as [|p ps IH]; [done|].
    cbn [fmap list_fmap]. rewrite bind_cons. cbn [ungovernedLibrary Packages app].
    f_equal. exact IH.
  - rewrite bind_cons, resolveVendored_Packages, bucketLibrary_eq. cbn.
    by rewrite app_nil_r.
Qed.

Lemma bind_bucketLibraries_Packages (roots : list packages.Package)
    (entries : list (string * list packages.Package)) :
  (entries ≫= bucketLibraries roots) ≫= Packages =
  packages.PkgPath <$> (entries ≫= snd).
Proof.
  induction entries as [|e entries IH]; [done|].
  rewrite !bind_cons, bind_app, IH, bucketLibraries_Packages.
  by rewrite fmap_app.
Qed.

Lemma bind_touch_Packages (ls : list Library) :
  (touch <$> ls) ≫= Packages ≡ₚ ls ≫= Packages.
Proof.
  induction ls as [|l ls IH]; [done|].
  cbn [fmap list_fmap]. rewrite !bind_cons. by rewrite IH, touch_Packages_Permutation.
Qed.

Lemma bind_touch_Packages' (ls : list Library) :
  ls ≫= Packages ≡ₚ (touch <$> ls) ≫= Packages.
Proof. by rewrite bind_touch_Packages. Qed.

Lemma sort_Slice_Packages (ls : list Library) :
  sort_Slice ls ≫= Packages ≡ₚ ls ≫= Packages.
Proof.
  rewrite (bind_touch_Packages' (sort_Slice ls)).
  by rewrite sort_Slice_touch_Permutation, bind_touch_Packages.
Qed.

Lemma sort_Slice_elem (ls : list Library) (l : Library) :
  l ∈ sort_Slice ls → ∃ l0, l0 ∈ ls ∧ touch l = touch l0.
Proof.
  intros Hl. apply (list_elem_of_fmap_2 touch) in Hl.
  rewrite sort_Slice_touch_Permutation in Hl.
  apply list_elem_of_fmap in Hl as (l0 & ? & ?). by exists l0.
Qed.

Lemma sort_Slice_elem_inv (ls : list Library) (l0 : Library) :
  l0 ∈ ls → ∃ l, l ∈ sort_Slice ls ∧ touch l = touch l0.
Proof.
  intros Hl. apply (list_elem_of_fmap_2 touch) in Hl.
  rewrite <-sort_Slice_touch_Permutation in Hl.
  apply list_elem_of_fmap in Hl as (l & ? & ?). by exists l.
Qed.

Lemma touch_elem_of_Packages (l l0 : Library) (x : string) :
  touch l = touch l0 → x ∈ Packages l ↔ x ∈ Packages l0.
Proof.
  intros Heq. rewrite <-(touch_Packages_Permutation l), Heq.
  by rewrite touch_Packages_Permutation.
Qed.

Lemma NoDup_bind_unique {A B} (f : A → list B) (ls : list A) (l l' : A) (x : B) :
  NoDup (ls ≫= f) → l ∈ ls → l' ∈ ls → x ∈ f l → x ∈ f l' → l = l'.
Proof.
  induction ls as [|a ls IH]; [by intros _ ?%elem_of_nil|].
  rewrite bind_cons, NoDup_app. intros (_ & Hdisj & Hnd).
  intros [->|Hl]%elem_of_cons [->|Hl']%elem_of_cons Hx Hx'; [done| | |by apply IH].
  - exfalso. eapply Hdisj; [exact Hx|]. apply list_elem_of_bind. by exists l'.
  - exfalso. eapply Hdisj; [exact Hx'|]. apply list_elem_of_bind. by exists l.
Qed.

Lemma NoDup_fmap_eq {A B} (f : A → B) (l : list A) (x y : A) :
  NoDup (f <$> l) → x ∈ l → y ∈ l → f x = f y → x = y.
Proof.
  induction l as [|a l IH]; [by intros _ ?%elem_of_nil|].
  cbn [fmap list_fmap]. rewrite NoDup_cons. intros [Hnot Hnd].
  intros [->|Hx]%elem_of_cons [->|Hy]%elem_of_cons Heq; [done| | |by apply IH].
  - exfalso. apply Hnot. rewrite Heq. by apply list_elem_of_fmap_2.
  - exfalso. apply Hnot. rewrite <-Heq. by apply list_elem_of_fmap_2.
Qed.

(** ** The libraries as a partition of the surviving packages *)

Section Partition.
Context {Classifier : Type}.
Variable GOROOT : string.
Variable Find : string → string → Classifier → string * option Error.
Variable rangeOrder :
  gmap string (list packages.Package) → list (string * list packages.Package).
Variable classifier : Classifier.
Variable includeTests : bool.
Variable ignoredPaths : list string.
Variable g : packages.Graph.
Variable rootPkgs : list Ptr.

(** [range] yields every entry of the map once. *)
Hypothesis range_entries : ∀ m, rangeOrder m ≡ₚ map_to_list m.

Local Abbreviation Surv := (survivors GOROOT Find classifier includeTests ignoredPaths g rootPkgs).
Local Abbreviation scanned' :=
  (scanned GOROOT Find classifier includeTests ignoredPaths g rootPkgs).
Local Abbreviation order := (rangeOrder (group Surv)).
Local Abbreviation roots := (omap (λ r, g !! r) rootPkgs).

Lemma Libraries_success (r : returned) :
  Libraries GOROOT Find rangeOrder classifier includeTests ignoredPaths g
    (rootPkgs, None) = Some r →
  err r = None →
  pkgErrorOccurred scanned' = false ∧ otherErrorOccurred scanned' = false ∧
  libraries r = sort_Slice (order ≫= bucketLibraries roots) ∧
  logged r = klog scanned' ++ (order ≫= bucketDiags roots).
Proof.
  rewrite Libraries_eq, pkgsByLicense_scanned. intros [= <-].
  destruct (pkgErrorOccurred _); [done|].
  destruct (otherErrorOccurred _); done.
Qed.

Lemma elem_of_order (k : string) (ps : list packages.Package) :
  (k, ps) ∈ order ↔ ps = (filter (λ kp, kp.1 = k) Surv).*2 ∧ ps ≠ [].
Proof. by rewrite range_entries, elem_of_map_to_list, group_lookup_Some. Qed.

Lemma unsorted_Packages :
  (order ≫= bucketLibraries roots) ≫= Packages ≡ₚ (packages.PkgPath ∘ snd) <$> Surv.
Proof.
  rewrite bind_bucketLibraries_Packages, range_entries, group_concat.
  by rewrite <-list_fmap_compose.
Qed.

(** Two surviving packages with a license are in one library before the
    sort exactly when the license paths are equal. *)
Lemma unsorted_together (kp kq : string * packages.Package) :
  NoDup ((packages.PkgPath ∘ snd) <$> Surv) →
  kp ∈ Surv → kq ∈ Surv → kp.1 ≠ "" → kq.1 ≠ "" →
  (∃ l, l ∈ order ≫= bucketLibraries roots ∧
        packages.PkgPath kp.2 ∈ Packages l ∧ packages.PkgPath kq.2 ∈ Packages l)
  ↔ kp.1 = kq.1.
Proof.
  intros Hnd Hp Hq Hpl Hql. split.
  - intros (l & ([k ps] & Hl & [-> Hne]%elem_of_order)%list_elem_of_bind & Hlp & Hlq).
    unfold bucketLibraries in Hl. cbn [fst snd] in Hl.
    destruct (decide (k = "")) as [->|Hk].
    + apply list_elem_of_fmap in Hl as (p & -> & _). cbn in Hlp, Hlq.
      apply list_elem_of_singleton in Hlp, Hlq.
      assert (kp = kq) as -> by (eapply NoDup_fmap_eq; [done..|]; simpl; congruence).
      done.
    + apply list_elem_of_singleton in Hl. subst l.
      rewrite resolveVendored_Packages, bucketLibrary_eq in Hlp, Hlq.
      cbn [Packages] in Hlp, Hlq.
      assert (∀ kx, kx ∈ Surv →
                packages.PkgPath kx.2 ∈
                  packages.PkgPath <$> (filter (λ kp, kp.1 = k) Surv).*2 →
                kx.1 = k) as Hkey.
      { intros kx Hx (p' & Heq & (kx' & -> & [Hk' Hx']%list_elem_of_filter)%list_elem_of_fmap)%list_elem_of_fmap.
        assert (kx = kx') as -> by (eapply NoDup_fmap_eq; [done..|]; done).
        done. }
      by rewrite (Hkey kp), (Hkey kq).
  - intros Heq.
    set (ps := (filter (λ kx, kx.1 = kp.1) Surv).*2).
    assert (kp.2 ∈ ps ∧ kq.2 ∈ ps) as [Hpin Hqin].
    { split; apply list_elem_of_fmap_2, list_elem_of_filter; done. }
    exists (resolveVendored roots (bucketLibrary kp.1 ps)).1. split_and!.
    + apply list_elem_of_bind. exists (kp.1, ps). split.
      * unfold bucketLibraries. cbn [fst snd]. rewrite decide_False by done.
        apply list_elem_of_singleton. done.
      * apply elem_of_order. split; [done|]. intros Hnil.
        rewrite Hnil in Hpin. by apply elem_of_nil in Hpin.
    + rewrite resolveVendored_Packages, bucketLibrary_eq. cbn [Packages].
      by apply list_elem_of_fmap_2.
    + rewrite resolveVendored_Packages, bucketLibrary_eq. cbn [Packages].
      by apply list_elem_of_fmap_2.
Qed.

Lemma partition_of_success (r : returned) :
  Libraries GOROOT Find rangeOrder classifier includeTests ignoredPaths g
    (rootPkgs, None) = Some r →
  err r = None →
  libraries r ≫= Packages ≡ₚ (packages.PkgPath ∘ snd) <$> Surv ∧
  (NoDup ((packages.PkgPath ∘ snd) <$> Surv) →
     NoDup (libraries r ≫= Packages) ∧
     (∀ kp, kp ∈ Surv →
        ∃ l, l ∈ libraries r ∧ packages.PkgPath kp.2 ∈ Packages l ∧
             ∀ l', l' ∈ libraries r → packages.PkgPath kp.2 ∈ Packages l' →
                   l' = l) ∧
     (∀ kp kq, kp ∈ Surv → kq ∈ Surv → kp.1 ≠ "" → kq.1 ≠ "" →
        (∃ l, l ∈ libraries r ∧ packages.PkgPath kp.2 ∈ Packages l ∧
              packages.PkgPath kq.2 ∈ Packages l) ↔ kp.1 = kq.1)).
Proof.
  intros Hrun Herr.
  destruct (Libraries_success r Hrun Herr) as (_ & _ & Hlibs & _).
  assert (libraries r ≫= Packages ≡ₚ (packages.PkgPath ∘ snd) <$> Surv) as Hperm.
  { by rewrite Hlibs, sort_Slice_Packages, unsorted_Packages. }
  split; [done|]. intros Hnd.
  assert (NoDup (libraries r ≫= Packages)) as Hnd' by by rewrite Hperm.
  split_and!; [done| |].
  - intros kp Hkp.
    assert (packages.PkgPath kp.2 ∈ libraries r ≫= Packages) as Hin.
    { rewrite Hperm. by apply (list_elem_of_fmap_2 (packages.PkgPath ∘ snd)). }
    apply list_elem_of_bind in Hin as (l & Hin & Hl).
    exists l. split_and!; [done..|]. intros l' Hl' Hin'.
    by eapply (NoDup_bind_unique Packages).
  - intros kp kq Hp Hq Hpl Hql.
    rewrite <-(unsorted_together kp kq) by done. rewrite Hlibs. split.
    + intros (l & (l0 & Hl0 & Ht)%sort_Slice_elem & Hlp & Hlq).
      exists l0. by rewrite <-!(touch_elem_of_Packages l l0).
    + intros (l0 & (l & Hl & Ht)%sort_Slice_elem_inv & Hlp & Hlq).
      exists l. by rewrite !(touch_elem_of_Packages l l0).
Qed.

(** C1, as amended.  [Libraries] returns.  When it succeeds, every
    surviving package accounts for exactly one entry in the member lists:
    taken together the member lists are a rearrangement of the surviving
    packages' import paths.  When these import paths are pairwise distinct,
    each of them is in exactly one library (and there once), and two
    surviving packages with a license are in the same library if and only if
    their license paths are the same string. *)
Theorem Libraries_partition :
  ∃ r,
    Libraries GOROOT Find rangeOrder classifier includeTests ignoredPaths g
      (rootPkgs, None) = Some r ∧
    (err r = None →
     libraries r ≫= Packages ≡ₚ (packages.PkgPath ∘ snd) <$> Surv ∧
     (NoDup ((packages.PkgPath ∘ snd) <$> Surv) →
        NoDup (libraries r ≫= Packages) ∧
        (∀ kp, kp ∈ Surv →
           ∃ l, l ∈ libraries r ∧ packages.PkgPath kp.2 ∈ Packages l ∧
                ∀ l', l' ∈ libraries r → packages.PkgPath kp.2 ∈ Packages l' →
                      l' = l) ∧
        (∀ kp kq, kp ∈ Surv → kq ∈ Surv → kp.1 ≠ "" → kq.1 ≠ "" →
           (∃ l, l ∈ libraries r ∧ packages.PkgPath kp.2 ∈ Packages l ∧
                 packages.PkgPath kq.2 ∈ Packages l) ↔ kp.1 = kq.1))).
Proof.
  eexists. split; [apply Libraries_eq|]. intros Herr.
  apply partition_of_success; [apply Libraries_eq|done].
Qed.

End Partition.

(** ** Determinism *)



Section Determinism.
Context {Classifier : Type}.
Variable GOROOT : string.
Variable Find : string → string → Classifier → string * option Error.
Variable classifier : Classifier.
Variable includeTests : bool.
Variable ignoredPaths : list string.
Variable g : packages.Graph.
Variable rootPkgs : list Ptr.

(** The [range] orders of two runs. *)
Variables rangeOrder1 rangeOrder2 :
  gmap string (list packages.Package) → list (string * list packages.Package).
Hypothesis range_entries1 : ∀ m, rangeOrder1 m ≡ₚ map_to_list m.
Hypothesis range_entries2 : ∀ m, rangeOrder2 m ≡ₚ map_to_list m.


End Determinism.

(** ** Load errors *)

Section Load_errors.
Context {Classifier : Type}.
Variable GOROOT : string.
Variable Find : string → string → Classifier → string * option Error.
Variable rangeOrder :
  gmap string (list packages.Package) → list (string * list packages.Package).
Variable classifier : Classifier.
Variable includeTests : bool.
Variable ignoredPaths : list string.
Variable g : packages.Graph.
Variable rootPkgs : list Ptr.

Local Abbreviation classify' :=
  (classify GOROOT Find classifier includeTests ignoredPaths).
Local Abbreviation descends' :=
  (descends GOROOT Find classifier includeTests ignoredPaths).

Lemma classify_Errored (p : packages.Package) :
  classify' p = Errored ↔ 0 < length (packages.Errors p).
Proof.
  unfold classify. case_bool_decide; [done|].
  split; [|done]. by repeat case_match.
Qed.

Lemma elem_of_visited (p : packages.Package) :
  p ∈ visited GOROOT Find classifier includeTests ignoredPaths g rootPkgs ↔
  ∃ x, reachable g descends' rootPkgs x ∧ g !! x = Some p.
Proof.
  unfold visited. rewrite list_elem_of_omap.
  by setoid_rewrite elem_of_visitOrder.
Qed.

(** C3, as amended.  [Libraries] returns [PackagesError] exactly when a
    package that the traversal reaches carries load errors: a root package,
    or an import of a reached package into which the traversal descends
    (one without load errors, outside the standard library, not a test
    binary when tests are included, and not a package with files but
    without module information).  Whenever [Libraries] returns an error
    the list it returns is nil. *)
Theorem Libraries_load_errors :
  ∃ r,
    Libraries GOROOT Find rangeOrder classifier includeTests ignoredPaths g
      (rootPkgs, None) = Some r ∧
    (err r = Some (PackagesError rootPkgs) ↔
       ∃ x p, reachable g descends' rootPkgs x ∧ g !! x = Some p ∧
              0 < length (packages.Errors p)) ∧
    (err r ≠ None → libraries r = []).
Proof.
  eexists. split; [apply Libraries_eq|].
  unfold scanned. rewrite foldl_record_pkgErrorOccurred. cbn [scan0 pkgErrorOccurred orb].
  case_bool_decide as Hex.
  - cbn. split; [|done]. split; [intros _|done].
    apply Exists_exists in Hex as (p & (x & ? & ?)%elem_of_visited & ?%classify_Errored).
    by exists x, p.
  - assert (¬ ∃ x p, reachable g descends' rootPkgs x ∧ g !! x = Some p ∧
                     0 < length (packages.Errors p)) as Hno.
    { intros (x & p & Hx & Hp & He). apply Hex, Exists_exists. exists p. split.
      - apply elem_of_visited. by exists x.
      - by apply classify_Errored. }
    destruct (otherErrorOccurred _); cbn; (split; [split; [done|by intros ?%Hno]|done]).
Qed.

End Load_errors.

(** ** [strings.SplitN] on the vendoring marker *)

Lemma prefix_app (a s : string) :
  String.prefix a s = true ↔ ∃ r, s = a +:+ r.
Proof.
  revert s. induction a as [|c a IH]; intros s.
  - split; [intros _; by exists s|]. by destruct s.
  - destruct s as [|d s]; simpl.
    + split; [done|]. by intros [r ?].
    + destruct (ascii_dec c d) as [->|Hne].
      * rewrite IH. split; intros [r Hr]; exists r; [by rewrite Hr|].
        by injection Hr.
      * split; [done|]. intros [r Hr]. by injection Hr.
Qed.

Lemma slice_from_app (a r : string) : slice_from (String.length a) (a +:+ r) = r.
Proof. induction a as [|c a IH]; simpl; [by destruct r|done]. Qed.

Lemma Cut_prefix (sep s : string) :
  String.prefix sep s = true →
  firstSplit sep s "" (slice_from (String.length sep) s).
Proof.
  intros [r ->]%prefix_app. rewrite slice_from_app. split; [done|simpl; lia].
Qed.

Lemma Cut_Some (sep s before after : string) :
  Cut sep s = Some (before, after) → firstSplit sep s before after.
Proof.
  revert before after. induction s as [|c s IH]; intros before after.
  - cbn [Cut]. destruct (String.prefix sep "") eqn:Hpre; [|done].
    intros [= <- <-]. by apply Cut_prefix.
  - cbn [Cut]. destruct (String.prefix sep (String c s)) eqn:Hpre.
    + intros [= <- <-]. by apply Cut_prefix.
    + destruct (Cut sep s) as [[b a]|] eqn:Hcut; [|done].
      intros [= <- <-]. destruct (IH b a eq_refl) as [Heq Hmin]. split.
      * simpl. by rewrite Heq.
      * intros [|d b'] a' Heq'.
        -- exfalso. simpl in Heq'.
           assert (String.prefix sep (String c s) = true) as Hp
             by (apply prefix_app; by exists a').
           congruence.
        -- simpl in Heq'. injection Heq' as -> Heq'.
           specialize (Hmin b' a' Heq'). simpl. lia.
Qed.






(** ** The vendoring special case *)


(** ** Names *)

Lemma prefix_cons (c : ascii) (a s : string) :
  String.prefix (String c a) (String c s) = String.prefix a s.
Proof. simpl. by destruct (ascii_dec c c). Qed.

Lemma prefix_refl (s : string) : String.prefix s s = true.
Proof. induction s as [|c s IH]; [done|]. by rewrite prefix_cons. Qed.

Lemma ascii_compare_refl (c : ascii) : Ascii.compare c c = Eq.
Proof. apply N.compare_refl. Qed.

Lemma le_cons (c d : ascii) (a b : string) :
  String.le (String c a) (String d b) →
  Ascii.compare c d = Lt ∨ (c = d ∧ String.le a b).
Proof.
  unfold String.le, String.leb. simpl.
  destruct (Ascii.compare c d) eqn:Hcd; [|by left|done].
  apply Ascii.compare_eq_iff in Hcd as ->. by right.
Qed.

(** Between two strings that start alike, every string starts alike. *)
Lemma prefix_between (p lo x hi : string) :
  String.prefix p lo = true → String.prefix p hi = true →
  String.le lo x → String.le x hi → String.prefix p x = true.
Proof.
  revert lo x hi. induction p as [|c p IH]; intros lo x hi Hlo Hhi Hle1 Hle2;
    [by destruct x|].
  destruct lo as [|c1 lo]; [done|]. destruct hi as [|c2 hi]; [done|].
  simpl in Hlo, Hhi.
  destruct (ascii_dec c c1) as [<-|]; [|done].
  destruct (ascii_dec c c2) as [<-|]; [|done].
  destruct x as [|d x]; [done|].
  apply le_cons in Hle1, Hle2.
  assert (c = d) as <-.
  { destruct Hle1 as [H1|[-> _]]; [|done]. destruct Hle2 as [H2|[-> _]]; [|done].
    rewrite Ascii.compare_antisym, H2 in H1. done. }
  rewrite prefix_cons.
  destruct Hle1 as [H1|[_ H1]]; [by rewrite ascii_compare_refl in H1|].
  destruct Hle2 as [H2|[_ H2]]; [by rewrite ascii_compare_refl in H2|].
  exact (IH lo x hi Hlo Hhi H1 H2).
Qed.

Lemma no_mismatch_prefix (a b : string) :
  NamingRule.firstMismatch a b = None → String.le a b → String.prefix a b = true.
Proof.
  revert b. induction a as [|x a IH]; intros [|y b] Hfm Hle; try done.
  simpl in Hfm. destruct (Ascii.eqb x y) eqn:Hxy; [|done].
  apply Ascii.eqb_eq in Hxy as ->. rewrite prefix_cons.
  destruct (NamingRule.firstMismatch a b) eqn:Hab; [done|].
  apply IH; [done|].
  apply le_cons in Hle as [Hlt|[_ ?]]; [by rewrite ascii_compare_refl in Hlt|done].
Qed.

(** What is kept of the first string is the start of both, and is followed
    by ["/"] in both. *)
Lemma boundary_prefix (a b : string) (k j : nat) :
  NamingRule.firstMismatch a b = Some k → NamingRule.lastSlashBefore k a = Some j →
  String.prefix (slice_to j a) a = true ∧ String.prefix (slice_to j a) b = true ∧
  String.prefix (slice_to j a +:+ "/") a = true ∧
  String.prefix (slice_to j a +:+ "/") b = true ∧
  slice_to j a ≠ a.
Proof.
  revert b k j. induction a as [|x a IH]; intros [|y b] k j Hfm Hls; try done.
  simpl in Hfm. destruct (Ascii.eqb x y) eqn:Hxy.
  - apply Ascii.eqb_eq in Hxy as <-.
    destruct (NamingRule.firstMismatch a b) as [k'|] eqn:Hab; [|done].
    simpl in Hfm. injection Hfm as <-. simpl in Hls.
    destruct (NamingRule.lastSlashBefore k' a) as [j'|] eqn:Hj.
    + injection Hls as <-. destruct (IH b k' j' Hab Hj) as (H1 & H2 & H3 & H4 & H5).
      unfold slice_to in *. cbn [String.substring].
      change (String x (substring 0 j' a) +:+ "/")
        with (String x (substring 0 j' a +:+ "/")).
      rewrite !prefix_cons. split_and!; try done. congruence.
    + destruct (Ascii.eqb x "/") eqn:Hx; [|done]. injection Hls as <-.
      apply Ascii.eqb_eq in Hx as ->. rewrite !slice_to_0.
      change ("" +:+ "/") with (String "/" ""). rewrite !prefix_cons.
      split_and!; [done|done|by destruct a|by destruct b|done].
  - injection Hfm as <-. by destruct a.
Qed.

Lemma last_elem_of (l : list string) (d : string) : l ≠ [] → List.last l d ∈ l.
Proof.
  induction l as [|x [|y l] IH]; intros Hne; [done|by left|].
  right. by apply IH.
Qed.

Lemma Sorted_le_hd_last (l : list string) (x : string) :
  Sorted String.le l → x ∈ l →
  String.le (hd "" l) x ∧ String.le x (List.last l "").
Proof.
  intros Hs%Sorted_StronglySorted; [|apply _]. induction Hs as [|y l Hs IH Hall].
  - by intros ?%elem_of_nil.
  - rewrite Forall_forall in Hall. intros [->|Hx]%elem_of_cons.
    + split; [done|]. destruct l as [|z l]; [done|].
      apply Hall. by apply (last_elem_of (z :: l)).
    + destruct (IH Hx) as [H1 H2]. split; [by apply Hall|].
      destruct l as [|z l]; [by apply elem_of_nil in Hx|done].
Qed.

(** The name is the start of every member; when it is neither empty nor
    the smallest member, it is followed by ["/"] in every member. *)
Lemma Name_common_prefix (l : Library) (p : string) :
  p ∈ Packages l →
  String.prefix (Name l) p = true ∧
  (Name l ≠ "" → Name l ≠ hd "" (sort_Strings (Packages l)) →
   String.prefix (Name l +:+ "/") p = true).
Proof.
  intros Hp. rewrite Name_unfold, commonAncestor_rule.
  destruct (Packages l) as [|p1 [|p2 ps]] eqn:Hl.
  - by apply elem_of_nil in Hp.
  - apply list_elem_of_singleton in Hp as ->. simpl. split; [apply prefix_refl|done].
  - unfold NamingRule.name, NamingRule.truncateAtBoundary.
    rewrite <-(sort_Strings_Permutation (p1 :: p2 :: ps)) in Hp.
    pose proof (sort_Strings_Sorted (p1 :: p2 :: ps)) as Hs.
    destruct (Sorted_le_hd_last _ _ Hs Hp) as [Hlo Hhi].
    assert (String.le (hd "" (sort_Strings (p1 :: p2 :: ps)))
                      (List.last (sort_Strings (p1 :: p2 :: ps)) "")) as Hmm
      by (by etrans).
    destruct (NamingRule.firstMismatch _ _) as [k|] eqn:Hfm.
    + destruct (NamingRule.lastSlashBefore _ _) as [j|] eqn:Hj;
        [|split; [by destruct p|done]].
      destruct (boundary_prefix _ _ _ _ Hfm Hj) as (H1 & H2 & H3 & H4 & _).
      split; [exact (prefix_between _ _ _ _ H1 H2 Hlo Hhi)|].
      intros _ _. exact (prefix_between _ _ _ _ H3 H4 Hlo Hhi).
    + split; [|done].
      exact (prefix_between _ _ _ _ (prefix_refl _) (no_mismatch_prefix _ _ Hfm Hmm)
               Hlo Hhi).
Qed.

(** C4.  [Name] follows the naming rule of the design document: the members
    are sorted, the first and the last are compared character by character,
    and the first is cut at the last ["/"] before the first difference; a
    single member is the name as it is.  The name is the start of every
    member; unless it is empty or the smallest member itself, it ends where a
    path segment of every member ends. *)
Theorem Name_naming_rule :
  (∀ l : Library, Name l = NamingRule.name (Packages l)) ∧
  (∀ (l : Library) (p : string),
     p ∈ Packages l →
     String.prefix (Name l) p = true ∧
     (Name l ≠ "" → Name l ≠ hd "" (sort_Strings (Packages l)) →
      String.prefix (Name l +:+ "/") p = true)) ∧
  Name {| LicensePath := ""; Packages := ["a/b/c"; "a/b/d"]; module := None |} = "a/b" ∧
  Name {| LicensePath := ""; Packages := ["a/b/c"]; module := None |} = "a/b/c" ∧
  Name {| LicensePath := ""; Packages := ["a/bc"; "a/bd"]; module := None |} = "a".
Proof.
  split_and!; [|apply Name_common_prefix|done..].
  intros l. rewrite Name_unfold. apply commonAncestor_rule.
Qed.


(** ** Ignored packages, and the library of a bucket *)

Lemma sort_Strings_short (l : list string) : length l < 2 → sort_Strings l = l.
Proof. destruct l as [|x [|y l]]; simpl; [done|done|lia]. Qed.

Section Buckets.
Context {Classifier : Type}.
Variable GOROOT : string.
Variable Find : string → string → Classifier → string * option Error.
Variable rangeOrder :
  gmap string (list packages.Package) → list (string * list packages.Package).
Variable classifier : Classifier.
Variable includeTests : bool.
Variable ignoredPaths : list string.
Variable g : packages.Graph.
Variable rootPkgs : list Ptr.

Hypothesis range_entries : ∀ m, rangeOrder m ≡ₚ map_to_list m.

Local Abbreviation classify' :=
  (classify GOROOT Find classifier includeTests ignoredPaths).
Local Abbreviation descends' :=
  (descends GOROOT Find classifier includeTests ignoredPaths).
Local Abbreviation licenseOf' :=
  (licenseOf GOROOT Find classifier includeTests ignoredPaths).
Local Abbreviation Surv :=
  (survivors GOROOT Find classifier includeTests ignoredPaths g rootPkgs).
Local Abbreviation scanned' :=
  (scanned GOROOT Find classifier includeTests ignoredPaths g rootPkgs).
Local Abbreviation roots := (omap (λ r, g !! r) rootPkgs).

Lemma elem_of_survivors (k : string) (p : packages.Package) :
  (k, p) ∈ Surv ↔
  p ∈ visited GOROOT Find classifier includeTests ignoredPaths g rootPkgs ∧
  licenseOf' p = Some k.
Proof.
  unfold survivors. rewrite list_elem_of_omap. split.
  - intros (p' & Hin & Heq). destruct (licenseOf' p') eqn:Hl; [|done].
    simpl in Heq. by simplify_eq.
  - intros [Hin Hl]. exists p. by rewrite Hl.
Qed.



Lemma firstModule_spec (ps : list packages.Package) :
  (∃ earlier p m later,
     ps = earlier ++ p :: later ∧
     (∀ q, q ∈ earlier → packages.Module' q = None) ∧
     packages.Module' p = Some m ∧ firstModule ps = newModule (Some m)) ∨
  ((∀ q, q ∈ ps → packages.Module' q = None) ∧ firstModule ps = None).
Proof.
  induction ps as [|p ps IH]; simpl.
  - right. split; [|done]. by intros ? ?%elem_of_nil.
  - destruct (packages.Module' p) as [m|] eqn:Hp.
    + left. exists [], p, m, ps. split_and!; try done. by intros ? ?%elem_of_nil.
    + destruct IH as [(earlier & p' & m & later & -> & He & Hp' & ->)|[Hall ->]].
      * left. exists (p :: earlier), p', m, later. split_and!; try done.
        intros q [->|?]%elem_of_cons; [done|by apply He].
      * right. split; [|done]. intros q [->|?]%elem_of_cons; [done|by apply Hall].
Qed.

Lemma bucket_of_success (r : returned) (k : string) (ps : list packages.Package) :
  Libraries GOROOT Find rangeOrder classifier includeTests ignoredPaths g
    (rootPkgs, None) = Some r →
  err r = None →
  k ≠ "" →
  pkgsByLicense scanned' !! k = Some ps →
  ps = (filter (λ kp, kp.1 = k) Surv).*2 ∧
  LicensePath (bucketLibrary k ps) = k ∧
  Packages (bucketLibrary k ps) = packages.PkgPath <$> ps ∧
  ((∃ earlier p m later,
      ps = earlier ++ p :: later ∧
      (∀ q, q ∈ earlier → packages.Module' q = None) ∧
      packages.Module' p = Some m ∧
      module (bucketLibrary k ps) = newModule (Some m)) ∨
   ((∀ q, q ∈ ps → packages.Module' q = None) ∧
    module (bucketLibrary k ps) = None)) ∧
  ∃ l, l ∈ libraries r ∧
       LicensePath l = k ∧
       module l = module (resolveVendored roots (bucketLibrary k ps)).1 ∧
       Packages l =
         if bool_decide (2 ≤ length (libraries r))
         then sort_Strings (packages.PkgPath <$> ps)
         else packages.PkgPath <$> ps.
Proof.
  intros Hrun Herr Hk Hps.
  destruct (Libraries_success GOROOT Find rangeOrder classifier includeTests
              ignoredPaths g rootPkgs r Hrun Herr) as (_ & _ & Hlibs & _).
  rewrite pkgsByLicense_scanned in Hps.
  pose proof Hps as [Hfilter Hne]%group_lookup_Some.
  rewrite bucketLibrary_eq. cbn [LicensePath Packages module].
  split_and!; [done|done|done|apply firstModule_spec|].
  set (lib0 := (resolveVendored roots
                  {| LicensePath := k; Packages := packages.PkgPath <$> ps;
                     module := firstModule ps |}).1).
  assert (lib0 ∈ rangeOrder (group Surv) ≫= bucketLibraries roots) as Hin.
  { apply list_elem_of_bind. exists (k, ps). split.
    - unfold bucketLibraries. cbn [fst snd]. rewrite decide_False by done.
      rewrite bucketLibrary_eq. by apply list_elem_of_singleton.
    - by rewrite range_entries, elem_of_map_to_list. }
  assert (Packages lib0 = packages.PkgPath <$> ps) as Hpk
    by apply resolveVendored_Packages.
  assert (LicensePath lib0 = k) as Hlp by apply resolveVendored_LicensePath.
  assert (length (libraries r) =
          length (rangeOrder (group Surv) ≫= bucketLibraries roots)) as Hlen.
  { rewrite Hlibs.
    rewrite <-(length_fmap touch (sort_Slice _)), <-(length_fmap touch (_ ≫= _)).
    by rewrite sort_Slice_touch_Permutation. }
  case_bool_decide as Hmany.
  - exists (touch lib0). split_and!.
    + rewrite Hlibs, sort_Slice_many by lia. by apply list_elem_of_fmap_2.
    + by rewrite touch_LicensePath.
    + by rewrite touch_module.
    + rewrite touch_Packages, Hpk. case_bool_decide; [done|].
      rewrite sort_Strings_short; [done|lia].
  - exists lib0. split_and!; [|done..].
    rewrite Hlibs, sort_Slice_few; [done|lia].
Qed.


(** C7, as amended.  The packages of a bucket are in the order in which
    the traversal met them.  The library built from a bucket has the import
    paths of these packages, in this order, as its members, and the module of
    the first of them that has one.  In the list [Libraries] returns the
    library comes as the vendoring step left it, with the license path of
    the bucket; its members are still in this order when the list has a
    single library, and are in increasing order when it has two or more,
    because the final sort asks every library for its [Name]. *)
Theorem bucket_library :
  ∃ r,
    Libraries GOROOT Find rangeOrder classifier includeTests ignoredPaths g
      (rootPkgs, None) = Some r ∧
    (err r = None →
     ∀ k ps, k ≠ "" → pkgsByLicense scanned' !! k = Some ps →
       ps = (filter (λ kp, kp.1 = k) Surv).*2 ∧
       LicensePath (bucketLibrary k ps) = k ∧
       Packages (bucketLibrary k ps) = packages.PkgPath <$> ps ∧
       ((∃ earlier p m later,
           ps = earlier ++ p :: later ∧
           (∀ q, q ∈ earlier → packages.Module' q = None) ∧
           packages.Module' p = Some m ∧
           module (bucketLibrary k ps) = newModule (Some m)) ∨
        ((∀ q, q ∈ ps → packages.Module' q = None) ∧
         module (bucketLibrary k ps) = None)) ∧
       ∃ l, l ∈ libraries r ∧
            LicensePath l = k ∧
            module l = module (resolveVendored roots (bucketLibrary k ps)).1 ∧
            Packages l =
              if bool_decide (2 ≤ length (libraries r))
              then sort_Strings (packages.PkgPath <$> ps)
              else packages.PkgPath <$> ps).
Proof.
  eexists. split; [apply Libraries_eq|]. intros Herr k ps Hk Hps.
  by apply bucket_of_success; [apply Libraries_eq|..].
Qed.

End Buckets.

(** ** File URLs *)

Section FileURL_facts.
Variable ModuleInfo : string → string → Info + Error.
Variable Info_FileURL : Info → string → string.

Local Abbreviation FileURL' := (FileURL ModuleInfo Info_FileURL).


(** C9.  A module with a directory and the empty version: the version was
    passed on to the source host as it is, the descriptor's commit is set to
    ["HEAD"], a warning is logged, and the URL is the one the descriptor
    builds for the file's path relative to the module directory.  The call
    succeeds whenever the source host and [filepath.Rel] do. *)
Theorem FileURL_empty_version (l : Library) (m : Module_) (filePath : string)
    (remote : Info) (relativePath : string) :
  module l = Some m → Version m = "" → Dir m ≠ "" →
  ModuleInfo (Path m) "" = inl remote →
  filepath.Rel (Dir m) filePath = Some relativePath →
  FileURL' (Some l) filePath =
    (Info_FileURL (SetCommit remote "HEAD") relativePath, None,
     [WarnEmptyVersion (Path m)]) ∧
  commit (SetCommit remote "HEAD") = "HEAD" ∧
  repoURL (SetCommit remote "HEAD") = repoURL remote.
Proof.
  intros Hm Hv Hd Hinfo Hrel. split; [|done].
  unfold FileURL. rewrite Hm, decide_False, Hv, Hinfo by done.
  rewrite decide_True by done. by rewrite Hrel.
Qed.

End FileURL_facts.

(** * Further properties *)

(** ** [Name] and the order of the members *)

(** X1.  The name does not depend on the order in which the members are
    listed. *)
Theorem Name_Permutation (l1 l2 : Library) :
  Packages l1 ≡ₚ Packages l2 → Name l1 = Name l2.
Proof.
  intros Hp. rewrite !Name_unfold.
  pose proof (Permutation_length Hp) as Hlen.
  destruct (Packages l1) as [|p1 [|q1 ps1]] eqn:H1.
  - apply Permutation_nil_l in Hp. by rewrite Hp.
  - apply Permutation_singleton_l in Hp. by rewrite Hp.
  - destruct (Packages l2) as [|p2 [|q2 ps2]] eqn:H2; try done.
    unfold commonAncestor. cbn [fst].
    by rewrite (sort_Strings_unique (p1 :: q1 :: ps1) (sort_Strings (p2 :: q2 :: ps2)))
      by (by rewrite ?sort_Strings_Permutation || apply sort_Strings_Sorted).
Qed.

(** X2.  A call of [Name] leaves the license path and the module alone and
    rearranges the members: two or more end up sorted, fewer stay as they
    are.  A second call gives the same name and changes nothing. *)
Theorem Name_run_effect (l : Library) :
  LicensePath (Name_run l).2 = LicensePath l ∧
  module (Name_run l).2 = module l ∧
  Packages (Name_run l).2 ≡ₚ Packages l ∧
  (2 ≤ length (Packages l) → Sorted String.le (Packages (Name_run l).2)) ∧
  (length (Packages l) < 2 → (Name_run l).2 = l) ∧
  Name_run (Name_run l).2 = Name_run l.
Proof.
  change (Name_run l).2 with (touch l). split_and!.
  - apply touch_LicensePath.
  - apply touch_module.
  - apply touch_Packages_Permutation.
  - intros Hl. rewrite touch_Packages, bool_decide_true by done.
    apply sort_Strings_Sorted.
  - apply touch_short.
  - by rewrite !Name_run_eq, Name_touch, touch_idemp.
Qed.

(** ** The outcomes of the filter, in terms of the package *)

Section Outcome.
Context {Classifier : Type}.
Variable GOROOT : string.
Variable Find : string → string → Classifier → string * option Error.
Variable rangeOrder :
  gmap string (list packages.Package) → list (string * list packages.Package).
Variable classifier : Classifier.
Variable includeTests : bool.
Variable ignoredPaths : list string.
Variable g : packages.Graph.
Variable rootPkgs : list Ptr.

Local Abbreviation classify' :=
  (classify GOROOT Find classifier includeTests ignoredPaths).
Local Abbreviation descends' :=
  (descends GOROOT Find classifier includeTests ignoredPaths).
Local Abbreviation licenseOf' :=
  (licenseOf GOROOT Find classifier includeTests ignoredPaths).
Local Abbreviation inspected' := (inspected GOROOT includeTests ignoredPaths).
Local Abbreviation scanned' :=
  (scanned GOROOT Find classifier includeTests ignoredPaths g rootPkgs).
Local Abbreviation Surv :=
  (survivors GOROOT Find classifier includeTests ignoredPaths g rootPkgs).

Lemma existsb_HasPrefix_false (path : string) (prefixes : list string) :
  existsb (λ i, HasPrefix path i) prefixes = false ↔
  ∀ i, i ∈ prefixes → HasPrefix path i = false.
Proof.
  induction prefixes as [|i prefixes IH]; simpl.
  - split; [|done]. by intros _ ? ?%elem_of_nil.
  - rewrite orb_false_iff, IH. split.
    + intros [Hi His] i' [->|?]%elem_of_cons; [done|by apply His].
    + intros Hall. split; [apply Hall; by left|]. intros i' ?. apply Hall. by right.
Qed.

Lemma pkgDirOf_Some (p : packages.Package) :
  is_Some (pkgDirOf p) ↔
  packages.GoFiles p ≠ [] ∨ packages.CompiledGoFiles p ≠ [] ∨
  packages.OtherFiles p ≠ [].
Proof.
  unfold pkgDirOf.
  destruct (packages.GoFiles p) as [|f fs];
    [destruct (packages.CompiledGoFiles p) as [|c cs];
       [destruct (packages.OtherFiles p) as [|o os]|]|].
  - split; [by intros [? ?]|by intros [?|[?|?]]].
  - split; [intros _; by right; right|intros _; by eexists].
  - split; [intros _; by right; left|intros _; by eexists].
  - split; [intros _; by left|intros _; by eexists].
Qed.

Lemma inspected_classify (p : packages.Package) :
  inspected' p ↔
  classify' p = NoModule ∨ ∃ licensePath, classify' p = Accepted licensePath.
Proof.
  unfold inspected, classify. rewrite <-existsb_HasPrefix_false, <-pkgDirOf_Some.
  case_bool_decide as Herr.
  { split; [|by intros [?|[? ?]]]. intros [He _]. rewrite He in Herr. simpl in Herr. lia. }
  assert (packages.Errors p = []) as He.
  { destruct (packages.Errors p); [done|]. simpl in Herr. lia. }
  destruct (isStdLib GOROOT p); [split; [by intros (_ & ? & _)|by intros [?|[? ?]]]|].
  destruct includeTests, (isTestBinary p); cbn [andb];
    try (split; [by intros (_ & _ & Ht & _); specialize (Ht eq_refl)|by intros [?|[? ?]]]).
  all: destruct (existsb _ ignoredPaths);
    [split; [by intros (_ & _ & _ & ? & _)|by intros [?|[? ?]]]|].
  all: destruct (pkgDirOf p) as [dir|];
    [|split; [by intros (_ & _ & _ & _ & [? ?])|by intros [?|[? ?]]]].
  all: split; [intros _|intros _; split_and!; try done; by eexists].
  all: destruct (packages.Module' p); [right; by eexists|by left].
Qed.

Lemma classify_NoModule (p : packages.Package) :
  classify' p = NoModule ↔ inspected' p ∧ packages.Module' p = None.
Proof.
  rewrite inspected_classify. unfold classify.
  repeat case_match; split; try done; try (by intros [[?|[? ?]] ?]);
    try (intros _; split; [by left|done]).
Qed.

Lemma classify_Accepted (p : packages.Package) (licensePath : string) :
  classify' p = Accepted licensePath →
  inspected' p ∧ packages.Module' p ≠ None.
Proof.
  intros Hc. split; [apply inspected_classify; right; by eexists|].
  intros Hm. assert (classify' p = NoModule) as Hn; [|congruence].
  apply classify_NoModule. split; [|done]. apply inspected_classify. right. by eexists.
Qed.

Lemma classify_not_Errored (p : packages.Package) :
  classify' p ≠ Errored ↔ packages.Errors p = [].
Proof.
  rewrite classify_Errored. destruct (packages.Errors p); simpl; split; try done; lia.
Qed.

Lemma scanned_otherErrorOccurred :
  otherErrorOccurred scanned' = true ↔
  ∃ x p, reachable g descends' rootPkgs x ∧ g !! x = Some p ∧
         inspected' p ∧ packages.Module' p = None.
Proof.
  unfold scanned. rewrite foldl_record_otherErrorOccurred.
  cbn [scan0 otherErrorOccurred orb]. rewrite bool_decide_eq_true, Exists_exists.
  split.
  - intros (p & (x & ? & ?)%elem_of_visited & [? ?]%classify_NoModule). by exists x, p.
  - intros (x & p & ? & ? & ? & ?). exists p. split.
    + apply elem_of_visited. by exists x.
    + by apply classify_NoModule.
Qed.

Lemma scanned_pkgErrorOccurred :
  pkgErrorOccurred scanned' = true ↔
  ∃ x p, reachable g descends' rootPkgs x ∧ g !! x = Some p ∧
         packages.Errors p ≠ [].
Proof.
  unfold scanned. rewrite foldl_record_pkgErrorOccurred.
  cbn [scan0 pkgErrorOccurred orb]. rewrite bool_decide_eq_true, Exists_exists.
  split.
  - intros (p & (x & ? & ?)%elem_of_visited & Hc). exists x, p. split_and!; [done..|].
    intros He. by apply classify_not_Errored in He.
  - intros (x & p & ? & ? & He). exists p. split.
    + apply elem_of_visited. by exists x.
    + destruct (decide (classify' p = Errored)) as [|Hn]; [done|].
      by apply classify_not_Errored in Hn.
Qed.

(** X3.  [Libraries] has three outcomes.  It returns the error about
    dependency packages exactly when no package the traversal reaches has
    load errors and one of them gets past the filters, has a file and has no
    module information; load errors take precedence.  It succeeds exactly
    when every reached package is free of load errors and, if it gets that
    far, has module information. *)
Theorem Libraries_outcome :
  ∃ r,
    Libraries GOROOT Find rangeOrder classifier includeTests ignoredPaths g
      (rootPkgs, None) = Some r ∧
    (err r = None ∨ err r = Some (PackagesError rootPkgs) ∨
     err r = Some DependencyErrors) ∧
    (err r = Some DependencyErrors ↔
       (∀ x p, reachable g descends' rootPkgs x → g !! x = Some p →
               packages.Errors p = []) ∧
       ∃ x p, reachable g descends' rootPkgs x ∧ g !! x = Some p ∧
              inspected' p ∧ packages.Module' p = None) ∧
    (err r = None ↔
       ∀ x p, reachable g descends' rootPkgs x → g !! x = Some p →
              packages.Errors p = [] ∧
              (inspected' p → packages.Module' p ≠ None)).
Proof.
  eexists. split; [apply Libraries_eq|].
  pose proof scanned_pkgErrorOccurred as Hpe.
  pose proof scanned_otherErrorOccurred as Hoe.
  destruct (pkgErrorOccurred scanned') eqn:Hp.
  - destruct (proj1 Hpe eq_refl) as (x & p & Hx & Hpx & He).
    cbn [err]. split_and!; [by right; left| |].
    + split; [done|]. intros [Hall _]. exfalso. by apply He, (Hall x p).
    + split; [done|]. intros Hall. exfalso. by apply He, (Hall x p).
  - assert (∀ x p, reachable g descends' rootPkgs x → g !! x = Some p →
                   packages.Errors p = []) as Hclean.
    { intros x p Hx Hpx. destruct (packages.Errors p) eqn:He; [done|].
      assert (false = true) as Habs; [|done].
      apply Hpe. exists x, p. split_and!; [done..|]. by rewrite He. }
    destruct (otherErrorOccurred scanned') eqn:Ho; cbn [err].
    + destruct (proj1 Hoe eq_refl) as (x & p & Hx & Hpx & Hi & Hm).
      split_and!; [by right; right| |].
      * split; [intros _; split; [done|by exists x, p]|done].
      * split; [done|]. intros Hall. exfalso. by apply (Hall x p).
    + split_and!; [by left| |].
      * split; [done|]. intros [_ Hex]. exfalso. by apply Hoe in Hex.
      * split; [|done]. intros _ x p Hx Hpx. split; [by eapply Hclean|].
        intros Hi Hm. assert (false = true) as Habs; [|done].
        apply Hoe. by exists x, p.
Qed.


Local Abbreviation traversalDiags' :=
  (traversalDiags GOROOT Find classifier includeTests ignoredPaths).
Local Abbreviation record' :=
  (record GOROOT Find classifier includeTests ignoredPaths).

Lemma klog_record (p : packages.Package) (s : scan) :
  klog (record' p s) = klog s ++ traversalDiags' p.
Proof.
  unfold record, visitPackage, traversalDiags, classify, say.
  repeat (case_match; simplify_eq/=; rewrite ?app_nil_r; try done);
    by rewrite <-app_assoc.
Qed.

Lemma klog_foldl_record (ps : list packages.Package) (s : scan) :
  klog (foldl (λ s p, record' p s) s ps) = klog s ++ (ps ≫= traversalDiags').
Proof.
  revert s. induction ps as [|p ps IH]; intros s; cbn [foldl].
  - by rewrite app_nil_r.
  - by rewrite IH, klog_record, bind_cons, app_assoc.
Qed.

Lemma elem_ErrNoModuleInfo (p : packages.Package) (path : string) :
  ErrNoModuleInfo path ∈ traversalDiags' p ↔
  classify' p = NoModule ∧ packages.PkgPath p = path.
Proof.
  unfold traversalDiags, classify.
  repeat (case_match; simplify_eq/=);
    rewrite ?elem_of_app, ?elem_of_cons, ?elem_of_nil; naive_solver.
Qed.

Lemma elem_ErrFindLicense (p : packages.Package) (path : string) (e : Error) :
  ErrFindLicense path e ∈ traversalDiags' p ↔
  ∃ dir m, pkgDirOf p = Some dir ∧ packages.Module' p = Some m ∧
           classify' p = Accepted (Find dir (packages.Dir m) classifier).1 ∧
           (Find dir (packages.Dir m) classifier).2 = Some e ∧
           packages.PkgPath p = path.
Proof.
  unfold traversalDiags, classify.
  repeat (case_match; simplify_eq/=);
    rewrite ?elem_of_app, ?elem_of_cons, ?elem_of_nil; naive_solver.
Qed.

Lemma elem_WarnNonGoCode (p : packages.Package) (path : string)
    (files : list string) :
  WarnNonGoCode path files ∈ traversalDiags' p ↔
  inspected' p ∧ packages.OtherFiles p = files ∧ files ≠ [] ∧
  packages.PkgPath p = path.
Proof.
  rewrite inspected_classify.
  assert (pkgDirOf p = None → packages.OtherFiles p = []) as Hfiles.
  { unfold pkgDirOf. by repeat case_match. }
  unfold traversalDiags.
  destruct (classify' p) eqn:Hc; try (split; [by intros ?%elem_of_nil|naive_solver]).
  - assert (pkgDirOf p = None) as Hd.
    { revert Hc. unfold classify. by repeat case_match. }
    rewrite (Hfiles Hd). simpl. rewrite Hd.
    split; [by intros ?%elem_of_nil|naive_solver].
  - case_bool_decide as Hlen;
      rewrite ?elem_of_app, ?elem_of_cons, ?elem_of_nil.
    + split.
      * intros [[Heq|[]]|Hin].
        -- simplify_eq. split_and!; [by left|done| |done].
           intros Hnil. rewrite Hnil in Hlen. simpl in Hlen. lia.
        -- exfalso. revert Hin. repeat case_match;
             rewrite ?elem_of_cons, ?elem_of_nil; naive_solver.
      * intros (_ & <- & _ & <-). by left; left.
    + split.
      * intros [[]|Hin]. exfalso. revert Hin. repeat case_match;
          rewrite ?elem_of_cons, ?elem_of_nil; naive_solver.
      * intros (_ & <- & Hne & _). destruct (packages.OtherFiles p); [done|].
        simpl in Hlen. lia.
  - case_bool_decide as Hlen;
      rewrite ?elem_of_app, ?elem_of_cons, ?elem_of_nil.
    + split.
      * intros [[Heq|[]]|Hin].
        -- simplify_eq. split_and!; [right; by eexists|done| |done].
           intros Hnil. rewrite Hnil in Hlen. simpl in Hlen. lia.
        -- exfalso. revert Hin. repeat case_match;
             rewrite ?elem_of_cons, ?elem_of_nil; naive_solver.
      * intros (_ & <- & _ & <-). by left; left.
    + split.
      * intros [[]|Hin]. exfalso. revert Hin. repeat case_match;
          rewrite ?elem_of_cons, ?elem_of_nil; naive_solver.
      * intros (_ & <- & Hne & _). destruct (packages.OtherFiles p); [done|].
        simpl in Hlen. lia.
Qed.

Lemma traversalDiags_kinds (p : packages.Package) (d : Diag) :
  d ∈ traversalDiags' p →
  match d with
  | WarnNonGoCode _ _ | ErrNoModuleInfo _ | ErrFindLicense _ _ => True
  | _ => False
  end.
Proof.
  unfold traversalDiags.
  repeat case_match; rewrite ?elem_of_app, ?elem_of_cons, ?elem_of_nil; naive_solver.
Qed.

Lemma bucketDiags_kinds (roots : list packages.Package)
    (entry : string * list packages.Package) (d : Diag) :
  d ∈ bucketDiags roots entry →
  match d with
  | WarnNotVendored _ | WarnNoParentPackage _ => True
  | _ => False
  end.
Proof.
  unfold bucketDiags, resolveVendored.
  repeat case_match; simplify_eq/=;
    rewrite ?elem_of_cons, ?elem_of_nil; naive_solver.
Qed.

(** X15.  What [Libraries] logs about packages.  It logs that a package
    has no module information exactly for the reached packages that got
    through the filter and have none; it logs a failed search for a license
    exactly for the reached packages that got through the filter, have
    module information and for which [Find] returned the error, and such a
    package is kept all the same, under the path [Find] returned with the
    error; it logs the non-Go files of exactly the reached packages that got
    through the filter and have some.  It never logs an empty version. *)
Theorem Libraries_logs :
  ∃ r,
    Libraries GOROOT Find rangeOrder classifier includeTests ignoredPaths g
      (rootPkgs, None) = Some r ∧
    (∀ path, ErrNoModuleInfo path ∈ logged r ↔
       ∃ x p, reachable g descends' rootPkgs x ∧ g !! x = Some p ∧
              inspected' p ∧ packages.Module' p = None ∧
              packages.PkgPath p = path) ∧
    (∀ path e, ErrFindLicense path e ∈ logged r ↔
       ∃ x p dir m, reachable g descends' rootPkgs x ∧ g !! x = Some p ∧
                    inspected' p ∧ pkgDirOf p = Some dir ∧
                    packages.Module' p = Some m ∧
                    (Find dir (packages.Dir m) classifier).2 = Some e ∧
                    packages.PkgPath p = path ∧
                    ((Find dir (packages.Dir m) classifier).1, p) ∈ Surv) ∧
    (∀ path files, WarnNonGoCode path files ∈ logged r ↔
       ∃ x p, reachable g descends' rootPkgs x ∧ g !! x = Some p ∧
              inspected' p ∧ packages.OtherFiles p = files ∧ files ≠ [] ∧
              packages.PkgPath p = path) ∧
    (∀ modulePath, WarnEmptyVersion modulePath ∉ logged r).
Proof.
  eexists. split; [apply Libraries_eq|].
  match goal with |- context [logged ?r] =>
    assert (∃ extra,
              logged r =
                (visited GOROOT Find classifier includeTests ignoredPaths g rootPkgs
                   ≫= traversalDiags') ++ extra ∧
              ∀ d, d ∈ extra →
                   match d with
                   | WarnNotVendored _ | WarnNoParentPackage _ => True
                   | _ => False
                   end) as (extra & -> & Hextra)
  end.
  { unfold scanned. rewrite klog_foldl_record. cbn [scan0 klog app].
    destruct (pkgErrorOccurred _);
      [exists []; cbn [logged]; rewrite app_nil_r; split; [done|by intros ? ?%elem_of_nil]|].
    destruct (otherErrorOccurred _);
      [exists []; cbn [logged]; rewrite app_nil_r; split; [done|by intros ? ?%elem_of_nil]|].
    eexists. cbn [logged]. split; [done|].
    intros d (entry & Hd & _)%list_elem_of_bind. by eapply bucketDiags_kinds. }
  split_and!.
  - intros path. rewrite elem_of_app, list_elem_of_bind. split.
    + intros [(p & [Hc <-]%elem_ErrNoModuleInfo & (x & ? & ?)%elem_of_visited)|Hin];
        [|by apply Hextra in Hin].
      apply classify_NoModule in Hc as [? ?]. by exists x, p.
    + intros (x & p & Hx & Hp & Hi & Hm & <-). left. exists p. split.
      * apply elem_ErrNoModuleInfo. split; [by apply classify_NoModule|done].
      * apply elem_of_visited. by exists x.
  - intros path e. rewrite elem_of_app, list_elem_of_bind. split.
    + intros [(p & Hd & Hv)|Hin]; [|by apply Hextra in Hin].
      apply elem_ErrFindLicense in Hd as (dir & m & Hdir & Hm & Hc & He & <-).
      pose proof Hv as (x & ? & ?)%elem_of_visited.
      exists x, p, dir, m. split_and!; try done.
      * apply inspected_classify. right. by eexists.
      * apply elem_of_survivors. split; [done|]. unfold licenseOf. by rewrite Hc.
    + intros (x & p & dir & m & Hx & Hp & Hi & Hdir & Hm & He & <- & Hs). left.
      exists p. split; [|apply elem_of_visited; by exists x].
      apply elem_ErrFindLicense. exists dir, m. split_and!; try done.
      apply elem_of_survivors in Hs as [_ Hl]. unfold licenseOf in Hl.
      destruct (classify' p) eqn:Hc; simplify_eq. done.
  - intros path files. rewrite elem_of_app, list_elem_of_bind. split.
    + intros [(p & (? & ? & ? & ?)%elem_WarnNonGoCode & (x & ? & ?)%elem_of_visited)|Hin];
        [|by apply Hextra in Hin].
      by exists x, p.
    + intros (x & p & Hx & Hp & Hi & Ho & Hne & Hpath). left. exists p. split.
      * by apply elem_WarnNonGoCode.
      * apply elem_of_visited. by exists x.
  - intros mp [(p & Hd & _)%list_elem_of_bind|Hin]%elem_of_app.
    + by apply traversalDiags_kinds in Hd.
    + by apply Hextra in Hin.
Qed.

End Outcome.

(** ** The libraries [Libraries] returns *)

Lemma sort_Slice_elem_touch (ls : list Library) (l : Library) :
  l ∈ sort_Slice ls → ∃ l0, l0 ∈ ls ∧ (l = touch l0 ∨ l = l0).
Proof.
  destruct (decide (2 ≤ length ls)) as [Hl|Hl].
  - rewrite sort_Slice_many by done.
    intros (l0 & -> & ?)%list_elem_of_fmap. exists l0. by split; [|left].
  - rewrite sort_Slice_few by lia. intros ?. exists l. by split; [|right].
Qed.

Lemma sort_Slice_elem_fixed (ls : list Library) (l0 : Library) :
  l0 ∈ ls → touch l0 = l0 → l0 ∈ sort_Slice ls.
Proof.
  intros Hin Ht. destruct (decide (2 ≤ length ls)) as [Hl|Hl].
  - rewrite sort_Slice_many by done. rewrite <-Ht. by apply list_elem_of_fmap_2.
  - by rewrite sort_Slice_few by lia.
Qed.

Lemma touch_ungovernedLibrary (p : packages.Package) :
  touch (ungovernedLibrary p) = ungovernedLibrary p.
Proof. apply touch_short. simpl. lia. Qed.

Section Returned.
Context {Classifier : Type}.
Variable GOROOT : string.
Variable Find : string → string → Classifier → string * option Error.
Variable rangeOrder :
  gmap string (list packages.Package) → list (string * list packages.Package).
Variable classifier : Classifier.
Variable includeTests : bool.
Variable ignoredPaths : list string.
Variable g : packages.Graph.
Variable rootPkgs : list Ptr.

Hypothesis range_entries : ∀ m, rangeOrder m ≡ₚ map_to_list m.

Local Abbreviation classify' :=
  (classify GOROOT Find classifier includeTests ignoredPaths).
Local Abbreviation descends' :=
  (descends GOROOT Find classifier includeTests ignoredPaths).
Local Abbreviation licenseOf' :=
  (licenseOf GOROOT Find classifier includeTests ignoredPaths).
Local Abbreviation inspected' := (inspected GOROOT includeTests ignoredPaths).
Local Abbreviation Surv :=
  (survivors GOROOT Find classifier includeTests ignoredPaths g rootPkgs).
Local Abbreviation roots := (omap (λ r, g !! r) rootPkgs).
Local Abbreviation unsorted :=
  (rangeOrder (group Surv) ≫= bucketLibraries roots).
Local Abbreviation Libraries' :=
  (Libraries GOROOT Find rangeOrder classifier includeTests ignoredPaths g
     (rootPkgs, None)).

Lemma bucket_elem_of (k : string) (p : packages.Package) :
  p ∈ (filter (λ kp, kp.1 = k) Surv).*2 ↔ (k, p) ∈ Surv.
Proof.
  rewrite list_elem_of_fmap. split.
  - intros ([k' p'] & -> & [Hk ?]%list_elem_of_filter). simpl in Hk. by subst.
  - intros Hin. exists (k, p). split; [done|]. by apply list_elem_of_filter.
Qed.

Lemma elem_of_unsorted (l0 : Library) :
  l0 ∈ unsorted ↔
  (∃ p, ("", p) ∈ Surv ∧ l0 = ungovernedLibrary p) ∨
  (∃ k ps, k ≠ "" ∧ ps ≠ [] ∧ ps = (filter (λ kp, kp.1 = k) Surv).*2 ∧
           l0 = (resolveVendored roots (bucketLibrary k ps)).1).
Proof.
  rewrite list_elem_of_bind. split.
  - intros ([k ps] & Hl & Hord).
    apply (elem_of_order GOROOT Find rangeOrder classifier includeTests ignoredPaths
             g rootPkgs range_entries) in Hord as [Hps Hne].
    unfold bucketLibraries in Hl. cbn [fst snd] in Hl.
    destruct (decide (k = "")) as [->|Hk].
    + left. apply list_elem_of_fmap in Hl as (p & -> & Hp). exists p. split; [|done].
      apply bucket_elem_of. by rewrite <-Hps.
    + right. apply list_elem_of_singleton in Hl. by exists k, ps.
  - intros [(p & Hp & ->)|(k & ps & Hk & Hne & Hps & ->)].
    + exists ("", (filter (λ kp, kp.1 = "") Surv).*2). split.
      * unfold bucketLibraries. cbn [fst snd]. rewrite decide_True by done.
        apply list_elem_of_fmap_2. by apply bucket_elem_of.
      * apply (elem_of_order GOROOT Find rangeOrder classifier includeTests
                 ignoredPaths g rootPkgs range_entries).
        split; [done|]. intros Hnil. apply bucket_elem_of in Hp.
        rewrite Hnil in Hp. by apply elem_of_nil in Hp.
    + exists (k, ps). split.
      * unfold bucketLibraries. cbn [fst snd]. rewrite decide_False by done.
        by apply list_elem_of_singleton.
      * by apply (elem_of_order GOROOT Find rangeOrder classifier includeTests
                    ignoredPaths g rootPkgs range_entries).
Qed.

Lemma returned_libraries (r : returned) :
  Libraries' = Some r → err r = None → libraries r = sort_Slice unsorted.
Proof.
  intros Hrun Herr.
  by destruct (Libraries_success GOROOT Find rangeOrder classifier includeTests
                 ignoredPaths g rootPkgs r Hrun Herr) as (_ & _ & ? & _).
Qed.

(** X4.  A package for which no license is found is a library of its own:
    when [Libraries] succeeds, each such package has a library with no license
    path, the package's import path as only member and the package's module;
    and every library without license path is of this kind. *)
Theorem unlicensed_libraries :
  ∃ r,
    Libraries GOROOT Find rangeOrder classifier includeTests ignoredPaths g
      (rootPkgs, None) = Some r ∧
    (err r = None →
     (∀ p, ("", p) ∈ Surv →
           {| LicensePath := ""; Packages := [packages.PkgPath p];
              module := newModule (packages.Module' p) |} ∈ libraries r) ∧
     (∀ l, l ∈ libraries r → LicensePath l = "" →
           ∃ p, ("", p) ∈ Surv ∧ Packages l = [packages.PkgPath p] ∧
                module l = newModule (packages.Module' p))).
Proof.
  eexists. split; [apply Libraries_eq|]. intros Herr.
  rewrite (returned_libraries _ (Libraries_eq _ _ _ _ _ _ _ _) Herr). split.
  - intros p Hp. apply (sort_Slice_elem_fixed _ (ungovernedLibrary p)).
    + apply elem_of_unsorted. left. by exists p.
    + apply touch_ungovernedLibrary.
  - intros l (l0 & Hl0 & Hl)%sort_Slice_elem_touch Hlp.
    apply elem_of_unsorted in Hl0 as [(p & Hp & ->)|(k & ps & Hk & _ & _ & ->)].
    + rewrite touch_ungovernedLibrary in Hl. exists p.
      by destruct Hl as [->| ->].
    + exfalso. apply Hk.
      destruct Hl as [->| ->];
        rewrite ?touch_LicensePath, resolveVendored_LicensePath, bucketLibrary_eq in Hlp;
        done.
Qed.

Lemma LicensePath_unsorted (entries : list (string * list packages.Package)) :
  filter (λ k, k ≠ "") (LicensePath <$> (entries ≫= bucketLibraries roots)) =
  filter (λ k, k ≠ "") entries.*1.
Proof.
  induction entries as [|[k ps] entries IH]; [done|].
  rewrite bind_cons, fmap_app, filter_app, IH. cbn [fmap list_fmap fst].
  unfold bucketLibraries. cbn [fst snd]. destruct (decide (k = "")) as [->|Hk].
  - rewrite filter_cons_False by (by intros ?).
    replace (filter _ (LicensePath <$> (ungovernedLibrary <$> ps))) with (@nil string);
      [done|].
    induction ps as [|p ps IHps]; [done|].
    cbn [fmap list_fmap]. by rewrite filter_cons_False by (by intros ?).
  - rewrite filter_cons_True by done. cbn [fmap list_fmap].
    rewrite resolveVendored_LicensePath, bucketLibrary_eq. cbn [LicensePath].
    by rewrite filter_cons_True, filter_nil by done.
Qed.

Lemma LicensePath_touch (ls : list Library) :
  LicensePath <$> (touch <$> ls) = LicensePath <$> ls.
Proof.
  induction ls as [|l ls IH]; [done|].
  cbn [fmap list_fmap] in *. by rewrite touch_LicensePath, IH.
Qed.

Lemma LicensePath_sort_Slice (ls : list Library) :
  LicensePath <$> sort_Slice ls ≡ₚ LicensePath <$> ls.
Proof.
  rewrite <-(LicensePath_touch (sort_Slice ls)), sort_Slice_touch_Permutation.
  by rewrite LicensePath_touch.
Qed.

(** X5.  There is one library per license file: when [Libraries] succeeds,
    no two libraries have the same non-empty license path, the license paths
    of the libraries are those found for the surviving packages, and no
    library is without members. *)
Theorem libraries_by_license :
  ∃ r,
    Libraries GOROOT Find rangeOrder classifier includeTests ignoredPaths g
      (rootPkgs, None) = Some r ∧
    (err r = None →
     NoDup (filter (λ k, k ≠ "") (LicensePath <$> libraries r)) ∧
     (∀ k, k ∈ LicensePath <$> libraries r ↔
           ∃ p, (k, p) ∈ survivors GOROOT Find classifier includeTests ignoredPaths
                            g rootPkgs) ∧
     (∀ l, l ∈ libraries r → Packages l ≠ [])).
Proof.
  eexists. split; [apply Libraries_eq|]. intros Herr.
  rewrite (returned_libraries _ (Libraries_eq _ _ _ _ _ _ _ _) Herr).
  split_and!.
  - rewrite LicensePath_sort_Slice, LicensePath_unsorted.
    apply NoDup_filter. rewrite range_entries. apply NoDup_fst_map_to_list.
  - intros k. rewrite LicensePath_sort_Slice, list_elem_of_fmap. split.
    + intros (l0 & -> & [(p & Hp & ->)|(k' & ps & Hk & Hne & Hps & ->)]%elem_of_unsorted).
      * by exists p.
      * rewrite resolveVendored_LicensePath, bucketLibrary_eq. cbn [LicensePath].
        destruct ps as [|p ps]; [done|]. exists p.
        apply bucket_elem_of. rewrite <-Hps. by left.
    + intros [p Hp]. destruct (decide (k = "")) as [->|Hk].
      * exists (ungovernedLibrary p). split; [done|].
        apply elem_of_unsorted. left. by exists p.
      * eexists. split; [|apply elem_of_unsorted; right;
                          exists k, ((filter (λ kp, kp.1 = k) Surv).*2);
                          split_and!; [done| |done|done]].
        -- by rewrite resolveVendored_LicensePath, bucketLibrary_eq.
        -- intros Hnil. apply bucket_elem_of in Hp. rewrite Hnil in Hp.
           by apply elem_of_nil in Hp.
  - intros l (l0 & Hl0 & Hl)%sort_Slice_elem_touch Hnil.
    assert (Packages l0 ≡ₚ []) as Hp0.
    { destruct Hl as [->| ->]; [by rewrite <-touch_Packages_Permutation, Hnil|
                                 by rewrite Hnil]. }
    apply Permutation_nil_r in Hp0.
    apply elem_of_unsorted in Hl0 as [(p & _ & ->)|(k & ps & _ & Hne & _ & ->)];
      [done|].
    rewrite resolveVendored_Packages, bucketLibrary_eq in Hp0. cbn in Hp0.
    by apply fmap_nil_inv in Hp0.
Qed.

(** X6.  Only packages that got through the filter are members: when
    [Libraries] succeeds, every member of every library is the import path of
    a package the traversal reached that has no load errors, is outside the
    standard library, is no test binary when tests are included, has none of
    the ignore-prefixes, has a file and has module information. *)
Theorem members_passed_filter :
  ∃ r,
    Libraries GOROOT Find rangeOrder classifier includeTests ignoredPaths g
      (rootPkgs, None) = Some r ∧
    (err r = None →
     ∀ l path, l ∈ libraries r → path ∈ Packages l →
       ∃ x p, reachable g descends' rootPkgs x ∧ g !! x = Some p ∧
              packages.PkgPath p = path ∧ inspected' p ∧
              packages.Module' p ≠ None).
Proof.
  eexists. split; [apply Libraries_eq|]. intros Herr l path Hl Hpath.
  destruct (partition_of_success GOROOT Find rangeOrder classifier includeTests
              ignoredPaths g rootPkgs range_entries _ (Libraries_eq _ _ _ _ _ _ _ _) Herr)
    as [Hperm _].
  assert (path ∈ (packages.PkgPath ∘ snd) <$> Surv) as Hin.
  { rewrite <-Hperm. apply list_elem_of_bind. by exists l. }
  apply list_elem_of_fmap in Hin as ([k p] & -> & Hkp).
  apply (elem_of_survivors GOROOT Find classifier includeTests ignoredPaths g rootPkgs)
    in Hkp as [(x & Hx & Hp)%elem_of_visited Hlic].
  exists x, p. split_and!; [done..| |].
  - unfold licenseOf in Hlic. destruct (classify' p) eqn:Hc; try done.
    by apply classify_Accepted in Hc as [? _].
  - unfold licenseOf in Hlic. destruct (classify' p) eqn:Hc; try done.
    by apply classify_Accepted in Hc as [_ ?].
Qed.

End Returned.

(** ** Standard library packages and test binaries *)

Lemma string_app_assoc (a b c : string) : (a +:+ b) +:+ c = a +:+ (b +:+ c).
Proof.
  induction a as [|x a IH]; [done|].
  change (String x ((a +:+ b) +:+ c) = String x (a +:+ (b +:+ c))). by rewrite IH.
Qed.

Lemma string_app_nil_r (a : string) : a +:+ "" = a.
Proof.
  induction a as [|x a IH]; [done|].
  change (String x (a +:+ "") = String x a). by rewrite IH.
Qed.

Lemma rev_app_spec (a b : string) : String.rev_app a b = String.rev a +:+ b.
Proof.
  unfold String.rev. revert b. induction a as [|x a IH]; intros b; [done|].
  change (String.rev_app a (String x b) = String.rev_app a (String x "") +:+ b).
  rewrite (IH (String x b)), (IH (String x "")). by rewrite string_app_assoc.
Qed.

Lemma rev_app_app (a b c : string) :
  String.rev_app (a +:+ b) c = String.rev_app b (String.rev_app a c).
Proof.
  revert c. induction a as [|x a IH]; intros c; [done|].
  change (String.rev_app (a +:+ b) (String x c) =
          String.rev_app b (String.rev_app a (String x c))).
  apply IH.
Qed.

Lemma rev_app_distr (a b : string) :
  String.rev (a +:+ b) = String.rev b +:+ String.rev a.
Proof. unfold String.rev at 1. by rewrite rev_app_app, rev_app_spec. Qed.

Lemma rev_involutive (a : string) : String.rev (String.rev a) = a.
Proof.
  induction a as [|x a IH]; [done|].
  change (String.rev (String.rev_app a (String x "")) = String x a).
  by rewrite rev_app_spec, rev_app_distr, IH.
Qed.

Lemma HasPrefix_spec (s prefix : string) :
  HasPrefix s prefix = true ↔ ∃ rest, s = prefix +:+ rest.
Proof. apply prefix_app. Qed.

Lemma HasSuffix_spec (s suffix : string) :
  HasSuffix s suffix = true ↔ ∃ start, s = start +:+ suffix.
Proof.
  unfold HasSuffix. rewrite prefix_app. split.
  - intros [r Hr]. exists (String.rev r).
    rewrite <-(rev_involutive s), Hr, rev_app_distr. by rewrite rev_involutive.
  - intros [start ->]. exists (String.rev start). apply rev_app_distr.
Qed.

(** X7.  A package belongs to the standard library exactly when it is
    named [unsafe], or its first Go file lies below [GOROOT]: the file's path
    is [GOROOT] followed by a path that starts with a separator (or by any
    path, when [GOROOT] itself ends with a separator).  A directory next to
    [GOROOT] whose name merely starts like it does not count, and the other
    files of the package are not looked at. *)
Theorem isStdLib_spec (GOROOT : string) (pkg : packages.Package) :
  isStdLib GOROOT pkg = true ↔
  packages.Name pkg = "unsafe" ∨
  ∃ file others rest,
    packages.GoFiles pkg = file :: others ∧ file = GOROOT +:+ rest ∧
    ((∃ start, GOROOT = start +:+ "/") ∨ ∃ rest', rest = "/" +:+ rest').
Proof.
  unfold isStdLib. destruct (decide (packages.Name pkg = "unsafe")) as [|Hname].
  { split; [by left|done]. }
  destruct (packages.GoFiles pkg) as [|file others].
  { split; [done|]. by intros [?|(? & ? & ? & ? & _)]. }
  destruct (HasSuffix GOROOT "/") eqn:Hsuf.
  - rewrite HasPrefix_spec. apply HasSuffix_spec in Hsuf. split.
    + intros [rest ->]. right. exists (GOROOT +:+ rest), others, rest.
      split_and!; [done..|by left].
    + intros [?|(f & o & rest & [= <- <-] & -> & _)]; [done|]. by exists rest.
  - rewrite HasPrefix_spec. split.
    + intros [rest' ->]. right. eexists _, others, ("/" +:+ rest').
      split_and!; [done|apply string_app_assoc|right; by exists rest'].
    + intros [?|(f & o & rest & [= <- <-] & -> & [Hs|[rest' ->]])]; [done| |].
      * apply HasSuffix_spec in Hs. congruence.
      * exists rest'. by rewrite string_app_assoc.
Qed.

(** X8.  A package is a test binary exactly when its import path ends in
    [.test]. *)
Theorem isTestBinary_spec (pkg : packages.Package) :
  isTestBinary pkg = true ↔ ∃ start, packages.PkgPath pkg = start +:+ ".test".
Proof. apply HasSuffix_spec. Qed.

(** ** File URLs, in full *)

Section FileURL_more.
Variable ModuleInfo : string → string → Info + Error.
Variable Info_FileURL : Info → string → string.

Local Abbreviation FileURL' := (FileURL ModuleInfo Info_FileURL).

(** X9.  [FileURL] succeeds exactly when the library has a module with a
    directory, the source host knows the module at the version given (asked
    with the version as it is, empty or not), and the file path can be made
    relative to the directory.  The URL is the one the descriptor builds for
    the relative path; the descriptor is used as the source host returned it
    unless the version is empty, and the warning is logged only then. *)
Theorem FileURL_success (o : option Library) (filePath url : string)
    (log : list Diag) :
  FileURL' o filePath = (url, None, log) ↔
  ∃ l m remote relativePath,
    o = Some l ∧ module l = Some m ∧ Dir m ≠ "" ∧
    ModuleInfo (Path m) (Version m) = inl remote ∧
    filepath.Rel (Dir m) filePath = Some relativePath ∧
    ((Version m = "" ∧ url = Info_FileURL (SetCommit remote "HEAD") relativePath ∧
      log = [WarnEmptyVersion (Path m)]) ∨
     (Version m ≠ "" ∧ url = Info_FileURL remote relativePath ∧ log = [])).
Proof.
  split.
  - destruct o as [l|]; [|done]. unfold FileURL.
    destruct (module l) as [m|] eqn:Hm; [|done].
    destruct (decide (Dir m = "")) as [|Hd]; [done|].
    destruct (ModuleInfo (Path m) (Version m)) as [remote|e] eqn:Hinfo; [|done].
    destruct (filepath.Rel (Dir m) filePath) as [rel|] eqn:Hrel;
      destruct (decide (Version m = "")) as [Hv|Hv]; try done.
    + intros [= <- <-]. exists l, m, remote, rel. split_and!; try done. by left.
    + intros [= <- <-]. exists l, m, remote, rel. split_and!; try done. by right.
  - intros (l & m & remote & rel & -> & Hm & Hd & Hinfo & Hrel & Hcase).
    unfold FileURL. rewrite Hm, decide_False, Hinfo, Hrel by done.
    destruct Hcase as [(Hv & -> & ->)|(Hv & -> & ->)].
    + by rewrite decide_True.
    + by rewrite decide_False.
Qed.

End FileURL_more.

(** ** The vendoring step, when it does nothing *)

Lemma findParent_elem (rootPkgs : list packages.Package) (dir : string)
    (parent : packages.Package) :
  findParent rootPkgs dir = Some parent →
  parent ∈ rootPkgs ∧ ∃ m, packages.Module' parent = Some m ∧ packages.Dir m = dir.
Proof.
  induction rootPkgs as [|r rootPkgs IH]; simpl; [done|].
  destruct (packages.Module' r) as [m|] eqn:Hr.
  - destruct (decide (packages.Dir m = dir)) as [Hd|Hd].
    + intros [= <-]. split; [by left|]. by exists m.
    + intros [? ?]%IH. split; [by right|done].
  - intros [? ?]%IH. split; [by right|done].
Qed.

(** X10.  The vendoring step never touches the license path or the members
    and logs at most one warning.  It leaves the library as it is and logs
    nothing when the library has no module, a module without path, or a
    module with a directory.  When it does change the module, the new one is
    the module of a root package whose module directory, followed by
    ["/vendor/"], starts the license path. *)
Theorem resolveVendored_inert (rootPkgs : list packages.Package) (lib : Library) :
  LicensePath (resolveVendored rootPkgs lib).1 = LicensePath lib ∧
  Packages (resolveVendored rootPkgs lib).1 = Packages lib ∧
  length (resolveVendored rootPkgs lib).2 ≤ 1 ∧
  ((module lib = None ∨ ∃ m, module lib = Some m ∧ (Path m = "" ∨ Dir m ≠ "")) →
   resolveVendored rootPkgs lib = (lib, [])) ∧
  (module (resolveVendored rootPkgs lib).1 ≠ module lib →
   ∃ parent m rest,
     parent ∈ rootPkgs ∧ packages.Module' parent = Some m ∧
     module (resolveVendored rootPkgs lib).1 = newModule (Some m) ∧
     LicensePath lib = packages.Dir m +:+ "/vendor/" +:+ rest ∧
     (resolveVendored rootPkgs lib).2 = []).
Proof.
  split_and!.
  - apply resolveVendored_LicensePath.
  - apply resolveVendored_Packages.
  - unfold resolveVendored. repeat case_match; simpl; lia.
  - unfold resolveVendored. intros [->|(m & -> & [->|Hd])]; [done| |].
    + by rewrite bool_decide_false by (by intros ?).
    + by rewrite (bool_decide_false (Dir m = "")), andb_false_r.
  - unfold resolveVendored, SplitN2.
    destruct (module lib) as [m|] eqn:Hm; [|done].
    destruct (bool_decide (Path m ≠ "") && bool_decide (Dir m = ""));
      [|cbn [fst]; rewrite Hm; by intros ?].
    destruct (Cut "/vendor/" (LicensePath lib)) as [[dir rest]|] eqn:Hcut;
      [|cbn [fst]; rewrite Hm; by intros ?].
    destruct (findParent rootPkgs dir) as [parent|] eqn:Hfind;
      [|cbn [fst]; rewrite Hm; by intros ?].
    intros _. apply findParent_elem in Hfind as (Hin & pm & Hpm & <-).
    apply Cut_Some in Hcut as [Hlp _].
    exists parent, pm, rest. cbn [fst snd module]. by rewrite Hpm.
Qed.

(** ** The report *)

Section Report_facts.
Context {Classifier : Type}.
Variable GOROOT : string.
Variable Find : string → string → Classifier → string * option Error.
Variable rangeOrder :
  gmap string (list packages.Package) → list (string * list packages.Package).
Variable NewClassifier : Classifier + Error.
Variable Identify : Classifier → string → string * option Error.
Variable ModuleInfo : string → string → Info + Error.
Variable Info_FileURL : Info → string → string.
Variable httpGet : string → Response.
Variable includeTests : bool.
Variable ignore : list string.
Variable g : packages.Graph.
Variable rootPkgs : list Ptr.

Local Abbreviation reportLibrary' :=
  (reportLibrary Identify ModuleInfo Info_FileURL httpGet).
Local Abbreviation reportStep' :=
  (reportStep Identify ModuleInfo Info_FileURL httpGet).
Local Abbreviation downloadFails' := (downloadFails ModuleInfo Info_FileURL httpGet).
Local Abbreviation reportMain' :=
  (reportMain GOROOT Find rangeOrder NewClassifier Identify ModuleInfo Info_FileURL
     httpGet includeTests ignore g (rootPkgs, None)).
Local Abbreviation FileURL' := (FileURL ModuleInfo Info_FileURL).

Local Ltac report_cases :=
  unfold reportLibrary, downloadFails;
  repeat (case_match; simplify_eq/=; try done).

Lemma reportLibrary_None (c : Classifier) (l : Library) :
  (reportLibrary' c l).1.1 = None ↔ downloadFails' l = true.
Proof.
  unfold reportLibrary, downloadFails.
  destruct (decide (LicensePath l ≠ "")) as [Hlp|Hlp];
    [rewrite bool_decide_true by done|by rewrite bool_decide_false by done].
  destruct (Identify c (LicensePath l)) as [name e].
  destruct (FileURL' (Some l) (LicensePath l)) as [[url [e'|]] flog]; [done|].
  cbn [andb]. destruct (Contains (rawURL url) "opensource.google"); [done|].
  cbn [negb andb]. by destruct (httpGet (rawURL url)).
Qed.

Lemma length_0_iff (s : string) : String.length s = 0 ↔ s = "".
Proof. by destruct s. Qed.

Lemma reportLibrary_Some (c : Classifier) (l : Library) (row : libraryData.t) :
  (reportLibrary' c l).1.1 = Some row →
  libraryData.Name row = Name l ∧
  libraryData.Version row ≠ "" ∧
  ((Library_Version l = "" ∧ libraryData.Version row = UNKNOWN) ∨
   (Library_Version l ≠ "" ∧ libraryData.Version row = Library_Version l)) ∧
  (LicensePath l = "" →
   libraryData.ShortName row = Name l ∧ libraryData.LicenseURL row = UNKNOWN ∧
   libraryData.LicenseName row = UNKNOWN ∧ libraryData.License row = UNKNOWN).
Proof.
  assert ((if decide (String.length (Library_Version l) = 0) then UNKNOWN
           else Library_Version l) ≠ "" ∧
          ((Library_Version l = "" ∧
            (if decide (String.length (Library_Version l) = 0) then UNKNOWN
             else Library_Version l) = UNKNOWN) ∨
           (Library_Version l ≠ "" ∧
            (if decide (String.length (Library_Version l) = 0) then UNKNOWN
             else Library_Version l) = Library_Version l))) as [Hv1 Hv2].
  { destruct (decide _) as [Hz|Hz].
    - apply length_0_iff in Hz. split; [done|by left].
    - rewrite length_0_iff in Hz. split; [done|by right]. }
  unfold reportLibrary.
  destruct (decide (LicensePath l ≠ "")) as [Hlp|Hlp].
  - destruct (Identify c (LicensePath l)) as [name e].
    destruct (FileURL' (Some l) (LicensePath l)) as [[url [e'|]] flog].
    + intros [= <-]. by split_and!.
    + destruct (negb _); [destruct (httpGet _)|]; intros [= <-]; by split_and!.
  - intros [= <-]. by split_and!.
Qed.

Lemma reportLibrary_requested (c : Classifier) (l : Library) :
  length (reportLibrary' c l).2 ≤ 1 ∧
  ∀ u, u ∈ (reportLibrary' c l).2 →
    LicensePath l ≠ "" ∧
    ∃ url log, FileURL' (Some l) (LicensePath l) = (url, None, log) ∧
               u = rawURL url ∧ Contains u "opensource.google" = false.
Proof.
  unfold reportLibrary.
  destruct (decide (LicensePath l ≠ "")) as [Hlp|Hlp];
    [|split; [simpl; lia|by intros ? ?%elem_of_nil]].
  destruct (Identify c (LicensePath l)) as [name e].
  destruct (FileURL' (Some l) (LicensePath l)) as [[url [e'|]] flog];
    [split; [simpl; lia|by intros ? ?%elem_of_nil]|].
  destruct (Contains (rawURL url) "opensource.google") eqn:Hos; cbn [negb];
    [split; [simpl; lia|by intros ? ?%elem_of_nil]|].
  destruct (httpGet (rawURL url)); cbn [snd]; (split; [simpl; lia|]);
    intros u ->%list_elem_of_singleton; (split; [done|]); by exists url, flog.
Qed.

Lemma foldl_reportStep (c : Classifier) (libs : list Library) (st : report) :
  foldl (reportStep' c) st libs =
  {| reportData := reportData st ++ omap (λ l, (reportLibrary' c l).1.1) libs;
     printed := printed st ++ (libs ≫= λ l, (reportLibrary' c l).1.2);
     requested := requested st ++ (libs ≫= λ l, (reportLibrary' c l).2) |}.
Proof.
  revert st. induction libs as [|l libs IH]; intros st; cbn [foldl].
  - cbn. rewrite !app_nil_r. by destruct st.
  - rewrite IH. unfold reportStep. rewrite !bind_cons. cbn [omap list_omap].
    destruct (reportLibrary' c l) as [[row log] urls].
    cbn [fst snd reportData printed requested].
    rewrite <-!app_assoc. by destruct row.
Qed.

(** [reportMain] gets to the renderer or returns the error of the
    classifier or of [Libraries]. *)
Lemma reportMain_run (c : Classifier) :
  NewClassifier = inl c →
  ∃ r,
    Libraries GOROOT Find rangeOrder c includeTests ignore g (rootPkgs, None) = Some r ∧
    reportMain' =
      Some (err r,
            if err r is Some _ then
              {| reportData := []; printed := FromLicenses <$> logged r;
                 requested := [] |}
            else
              {| reportData := omap (λ l, (reportLibrary' c l).1.1) (libraries r);
                 printed := (FromLicenses <$> logged r) ++
                            (libraries r ≫= λ l, (reportLibrary' c l).1.2);
                 requested := libraries r ≫= λ l, (reportLibrary' c l).2 |}).
Proof.
  intros Hc. eexists. split; [apply Libraries_eq|].
  unfold reportMain. rewrite Hc, Libraries_eq.
  destruct (pkgErrorOccurred _); [done|]. destruct (otherErrorOccurred _); [done|].
  cbn [err libraries logged]. by rewrite foldl_reportStep.
Qed.

Lemma omap_names (c : Classifier) (libs : list Library) :
  libraryData.Name <$> omap (λ l, (reportLibrary' c l).1.1) libs =
  Name <$> filter (λ l, downloadFails' l = false) libs.
Proof.
  induction libs as [|l libs IH]; [done|]. cbn [omap list_omap].
  destruct ((reportLibrary' c l).1.1) as [row|] eqn:Hrow.
  - rewrite filter_cons_True.
    + cbn [fmap list_fmap]. rewrite <-IH.
      by destruct (reportLibrary_Some c l row Hrow) as [-> _].
    + destruct (downloadFails' l) eqn:Hd; [|done].
      apply (proj2 (reportLibrary_None c l)) in Hd. rewrite Hd in Hrow. done.
  - rewrite filter_cons_False; [done|].
    apply (proj1 (reportLibrary_None c l)) in Hrow.
    by rewrite Hrow.
Qed.

(** X11.  The report has a row for every library [Libraries] returns, in
    the same order, except for the libraries whose license text could not be
    downloaded: those are left out.  When the classifier cannot be built or
    [Libraries] fails, [reportMain] returns that error, builds no row and
    requests nothing. *)
Theorem report_rows :
  match NewClassifier with
  | inr e =>
      reportMain' = Some (Some e, {| reportData := []; printed := []; requested := [] |})
  | inl c =>
      ∃ r out,
        Libraries GOROOT Find rangeOrder c includeTests ignore g (rootPkgs, None)
          = Some r ∧
        reportMain' = Some (err r, out) ∧
        (err r ≠ None → reportData out = [] ∧ requested out = []) ∧
        (err r = None →
         libraryData.Name <$> reportData out =
           Name <$> filter (λ l, downloadFails' l = false) (libraries r))
  end.
Proof.
  destruct NewClassifier as [c|e] eqn:Hc; [|done].
  destruct (reportMain_run c Hc) as (r & Hrun & Hmain). rewrite Hc in Hmain.
  eexists r, _. split; [done|]. split; [exact Hmain|].
  destruct (err r); [by split|]. split; [done|]. intros _.
  cbn [reportData]. apply omap_names.
Qed.

Lemma requested_length (c : Classifier) (libs : list Library) :
  length (libs ≫= λ l, (reportLibrary' c l).2) ≤
  length (filter (λ l, LicensePath l ≠ "") libs).
Proof.
  induction libs as [|l libs IH]; [done|].
  rewrite bind_cons, length_app.
  destruct (reportLibrary_requested c l) as [Hlen Hreq].
  destruct (decide (LicensePath l ≠ "")) as [Hlp|Hlp].
  - rewrite filter_cons_True by done. simpl. lia.
  - rewrite filter_cons_False by done.
    destruct ((reportLibrary' c l).2) as [|u us] eqn:Hu; [simpl; lia|].
    destruct (Hreq u) as [? _]; [by left|done].
Qed.

(** X12.  Only license texts are requested: every URL [reportMain] asks
    of [http.Get] is the download URL of the license file of a library that
    has a license path and for which [FileURL] succeeded, and it does not
    contain [opensource.google]; there is at most one request per such
    library. *)
Theorem report_requests :
  match NewClassifier with
  | inr e =>
      reportMain' = Some (Some e, {| reportData := []; printed := []; requested := [] |})
  | inl c =>
      ∃ r out,
        Libraries GOROOT Find rangeOrder c includeTests ignore g (rootPkgs, None)
          = Some r ∧
        reportMain' = Some (err r, out) ∧
        (∀ u, u ∈ requested out →
           ∃ l url log,
             l ∈ libraries r ∧ LicensePath l ≠ "" ∧
             FileURL' (Some l) (LicensePath l) = (url, None, log) ∧
             u = rawURL url ∧ Contains u "opensource.google" = false) ∧
        length (requested out) ≤
          length (filter (λ l, LicensePath l ≠ "") (libraries r))
  end.
Proof.
  destruct NewClassifier as [c|e] eqn:Hc; [|done].
  destruct (reportMain_run c Hc) as (r & Hrun & Hmain). rewrite Hc in Hmain.
  eexists r, _. split; [done|]. split; [exact Hmain|].
  destruct (err r); [split; [by intros ? ?%elem_of_nil|simpl; lia]|].
  cbn [requested]. split.
  - intros u (l & Hu & Hl)%list_elem_of_bind.
    destruct (reportLibrary_requested c l) as [_ Hreq].
    destruct (Hreq u Hu) as (Hlp & url & log & ? & ? & ?). by exists l, url, log.
  - apply requested_length.
Qed.

(** X13.  Every row of the report stems from a library of the list: it has
    the library's name, and as version the version of the library's module,
    or [Unknown] when the library has no module or the version is empty; the
    version is never empty.  A library without license path gets [Unknown]
    as license URL, license name and license text. *)
Theorem report_versions :
  match NewClassifier with
  | inr e =>
      reportMain' = Some (Some e, {| reportData := []; printed := []; requested := [] |})
  | inl c =>
      ∃ r out,
        Libraries GOROOT Find rangeOrder c includeTests ignore g (rootPkgs, None)
          = Some r ∧
        reportMain' = Some (err r, out) ∧
        ∀ row, row ∈ reportData out →
          libraryData.Version row ≠ "" ∧
          ∃ l, l ∈ libraries r ∧ libraryData.Name row = Name l ∧
               ((Library_Version l = "" ∧ libraryData.Version row = UNKNOWN) ∨
                (Library_Version l ≠ "" ∧
                 libraryData.Version row = Library_Version l)) ∧
               (LicensePath l = "" →
                libraryData.ShortName row = Name l ∧
                libraryData.LicenseURL row = UNKNOWN ∧
                libraryData.LicenseName row = UNKNOWN ∧
                libraryData.License row = UNKNOWN)
  end.
Proof.
  destruct NewClassifier as [c|e] eqn:Hc; [|done].
  destruct (reportMain_run c Hc) as (r & Hrun & Hmain). rewrite Hc in Hmain.
  eexists r, _. split; [done|]. split; [exact Hmain|].
  destruct (err r); [by intros ? ?%elem_of_nil|]. cbn [reportData].
  intros row (l & Hl & Hrow)%list_elem_of_omap.
  destruct (reportLibrary_Some c l row Hrow) as (? & ? & ? & ?).
  split; [done|]. by exists l.
Qed.

Lemma omap_rows_Sorted (c : Classifier) (libs : list Library) :
  StronglySorted name_le libs →
  StronglySorted (λ a b, String.le (libraryData.Name a) (libraryData.Name b))
    (omap (λ l, (reportLibrary' c l).1.1) libs).
Proof.
  induction 1 as [|l libs Hs IH Hall]; cbn [omap list_omap]; [constructor|].
  destruct ((reportLibrary' c l).1.1) as [row|] eqn:Hrow; [|done].
  constructor; [done|]. apply Forall_forall.
  intros row' (l' & Hl' & Hrow')%list_elem_of_omap.
  destruct (reportLibrary_Some c l row Hrow) as [-> _].
  destruct (reportLibrary_Some c l' row' Hrow') as [-> _].
  rewrite Forall_forall in Hall. by apply Hall.
Qed.

(** X14.  The rows of the report are in non-decreasing order of the
    library name. *)
Theorem report_sorted :
  match NewClassifier with
  | inr e =>
      reportMain' = Some (Some e, {| reportData := []; printed := []; requested := [] |})
  | inl c =>
      ∃ r out,
        Libraries GOROOT Find rangeOrder c includeTests ignore g (rootPkgs, None)
          = Some r ∧
        reportMain' = Some (err r, out) ∧
        StronglySorted
          (λ a b, String.le (libraryData.Name a) (libraryData.Name b))
          (reportData out)
  end.
Proof.
  destruct NewClassifier as [c|e] eqn:Hc; [|done].
  destruct (reportMain_run c Hc) as (r & Hrun & Hmain). rewrite Hc in Hmain.
  eexists r, _. split; [done|]. split; [exact Hmain|].
  assert (Sorted name_le (libraries r)) as Hs.
  { rewrite Libraries_eq in Hrun. injection Hrun as <-.
    destruct (pkgErrorOccurred _); [constructor|].
    destruct (otherErrorOccurred _); [constructor|]. apply sort_Slice_Sorted. }
  destruct (err r); [constructor|]. cbn [reportData].
  apply omap_rows_Sorted. by apply Sorted_StronglySorted; [apply _|].
Qed.

End Report_facts.

(** * The theorems at work on the sample inputs *)

Import Examples.

Lemma ascending_entries (m : gmap string (list packages.Package)) :
  ascending m ≡ₚ map_to_list m.
Proof. done. Defined.


(** C1: two packages of one module under one license file make one library
    with both as members. *)
Lemma Libraries_partition_witness :
  let r := {| libraries := [library "/src/m/LICENSE"
                              ["example.com/m/x"; "example.com/m/y"]
                              "example.com/m" "v1.2.3" "/src/m"];
              err := None; logged := [] |} in
  let S := survivors GOROOT findAtRoot tt false [] twoPackages [0] in
  (∀ m, ascending m ≡ₚ map_to_list m) ∧
  Libraries GOROOT findAtRoot ascending tt false [] twoPackages ([0], None) = Some r ∧
  err r = None ∧
  NoDup ((packages.PkgPath ∘ snd) <$> S) ∧
  libraries r ≫= Packages ≡ₚ (packages.PkgPath ∘ snd) <$> S ∧
  NoDup (libraries r ≫= Packages).
Proof.
  intros r S.
  assert (Libraries GOROOT findAtRoot ascending tt false [] twoPackages ([0], None)
          = Some r) as Hrun by (vm_compute; reflexivity).
  assert (NoDup ((packages.PkgPath ∘ snd) <$> S)) as Hnd
    by (apply (bool_decide_unpack _); vm_compute; exact I).
  destruct (Libraries_partition GOROOT findAtRoot ascending tt false []
              twoPackages [0] ascending_entries) as (r' & Hrun' & Hpart).
  pose proof (eq_trans (eq_sym Hrun') Hrun) as Hr. injection Hr as Hr. subst r'.
  destruct (Hpart eq_refl) as [Hperm Hrest].
  destruct (Hrest Hnd) as [Hnd' _].
  split_and!; [exact ascending_entries|exact Hrun|reflexivity|exact Hnd|exact Hperm|exact Hnd'].
Defined.

(** C1 fails as stated: with tests included, a package and its test variant
    share an import path; without a license each is a library of its own, so
    the import path is in the member lists of two libraries. *)
Lemma Libraries_partition_counterexample :
  ∃ r l0 l1,
    Libraries GOROOT findNothing ascending tt true [] withTestVariant ([0; 1], None)
      = Some r ∧
    err r = None ∧
    length (survivors GOROOT findNothing tt true [] withTestVariant [0; 1]) = 2 ∧
    libraries r !! 0 = Some l0 ∧ libraries r !! 1 = Some l1 ∧
    "example.com/m/x" ∈ Packages l0 ∧ "example.com/m/x" ∈ Packages l1 ∧
    ¬ NoDup (libraries r ≫= Packages).
Proof.
  eexists _, _, _. split; [vm_compute; reflexivity|].
  split_and!; [reflexivity|vm_compute; reflexivity|reflexivity|reflexivity| | |].
  - apply (bool_decide_unpack _). vm_compute. exact I.
  - apply (bool_decide_unpack _). vm_compute. exact I.
  - apply (bool_decide_unpack _). vm_compute. exact I.
Qed.



(** C3: a broken import of the application makes [Libraries] fail. *)
Lemma Libraries_load_errors_witness :
  ∃ r, Libraries GOROOT findAtRoot ascending tt false [] brokenImport ([0], None)
         = Some r ∧
       err r = Some (PackagesError [0]) ∧ libraries r = [].
Proof.
  destruct (Libraries_load_errors GOROOT findAtRoot ascending tt false []
              brokenImport [0]) as (r & Hrun & Herr & Hnil).
  exists r. split; [exact Hrun|].
  assert (err r = Some (PackagesError [0])) as He.
  { apply Herr. eexists 1, _. split_and!; [|reflexivity|simpl; lia].
    exists 0. split_and!; [by left|by eexists|].
    apply rtc_once. eexists _, "example.com/dep".
    split_and!; [reflexivity|vm_compute; reflexivity|vm_compute; reflexivity|by eexists]. }
  split; [exact He|]. apply Hnil. by rewrite He.
Defined.

(** C3 fails as stated: a package with load errors that only a standard
    library package imports is never looked at. *)
Lemma Libraries_load_errors_counterexample :
  ∃ r p,
    Libraries GOROOT findAtRoot ascending tt false [] brokenBehindStdlib ([0], None)
      = Some r ∧
    brokenBehindStdlib !! 2 = Some p ∧ 0 < length (packages.Errors p) ∧
    err r = None ∧
    libraries r = [library "/src/app/LICENSE" ["example.com/app"]
                     "example.com/app" "" "/src/app"].
Proof.
  eexists _, _. split; [vm_compute; reflexivity|].
  split_and!; [reflexivity|simpl; lia|reflexivity|reflexivity].
Qed.




(** C7: the single library of two packages keeps the order of its
    bucket. *)
Lemma bucket_library_witness :
  let r := {| libraries := [library "/src/m/LICENSE"
                              ["example.com/m/x"; "example.com/m/y"]
                              "example.com/m" "v1.2.3" "/src/m"];
              err := None; logged := [] |} in
  let ps := [pkg "x" "example.com/m/x" ["/src/m/x/x.go"]
               {[ "example.com/m/y" := 1 ]} modM;
             pkg "y" "example.com/m/y" ["/src/m/y/y.go"] ∅ modM] in
  (∀ m, ascending m ≡ₚ map_to_list m) ∧
  Libraries GOROOT findAtRoot ascending tt false [] twoPackages ([0], None) = Some r ∧
  err r = None ∧
  "/src/m/LICENSE" ≠ "" ∧
  pkgsByLicense (scanned GOROOT findAtRoot tt false [] twoPackages [0])
    !! "/src/m/LICENSE" = Some ps ∧
  Packages (bucketLibrary "/src/m/LICENSE" ps) =
    ["example.com/m/x"; "example.com/m/y"] ∧
  ∃ l, l ∈ libraries r ∧ LicensePath l = "/src/m/LICENSE" ∧
       Packages l = ["example.com/m/x"; "example.com/m/y"].
Proof.
  intros r ps.
  assert (Libraries GOROOT findAtRoot ascending tt false [] twoPackages ([0], None)
          = Some r) as Hrun by (vm_compute; reflexivity).
  assert ("/src/m/LICENSE" ≠ "") as Hk by discriminate.
  assert (pkgsByLicense (scanned GOROOT findAtRoot tt false [] twoPackages [0])
            !! "/src/m/LICENSE" = Some ps) as Hps by (vm_compute; reflexivity).
  destruct (bucket_library GOROOT findAtRoot ascending tt false [] twoPackages [0]
              ascending_entries) as (r' & Hrun' & Hbucket).
  pose proof (eq_trans (eq_sym Hrun') Hrun) as Hr. injection Hr as Hr. subst r'.
  destruct (Hbucket eq_refl "/src/m/LICENSE" ps Hk Hps)
    as (_ & _ & Hmembers & _ & l & Hl & Hlp & _ & Hpk).
  split_and!; [exact ascending_entries|exact Hrun|reflexivity|exact Hk|exact Hps
              |exact Hmembers|].
  exists l. split_and!; [exact Hl|exact Hlp|exact Hpk].
Defined.

(** C7 fails as stated: with a second library in the list, the members of
    the returned library are sorted, not in the order of the bucket. *)
Lemma bucket_library_counterexample :
  ∃ r ps l,
    Libraries GOROOT findAtRoot ascending tt false [] importsEarlierName ([0], None)
      = Some r ∧
    err r = None ∧
    pkgsByLicense (scanned GOROOT findAtRoot tt false [] importsEarlierName [0])
      !! "/src/m/LICENSE" = Some ps ∧
    packages.PkgPath <$> ps = ["example.com/m/z"; "example.com/m/a"] ∧
    Packages (bucketLibrary "/src/m/LICENSE" ps) =
      ["example.com/m/z"; "example.com/m/a"] ∧
    libraries r !! 1 = Some l ∧
    Forall (λ l', LicensePath l' = "/src/m/LICENSE" → l' = l) (libraries r) ∧
    LicensePath l = "/src/m/LICENSE" ∧
    Packages l = ["example.com/m/a"; "example.com/m/z"] ∧
    Packages l ≠ packages.PkgPath <$> ps.
Proof.
  eexists _, _, _. split; [vm_compute; reflexivity|].
  split; [reflexivity|]. split; [vm_compute; reflexivity|].
  split_and!; try (vm_compute; reflexivity).
  - apply (bool_decide_unpack _). vm_compute. exact I.
  - vm_compute. discriminate.
Qed.



(** C9: the license file of a module under development. *)
Lemma FileURL_empty_version_witness :
  let m := {| Path := "example.com/m"; Version := ""; Dir := "/src/m" |} in
  let l := library "/src/m/LICENSE" ["example.com/m/x"] "example.com/m" "" "/src/m" in
  module l = Some m ∧ Version m = "" ∧ Dir m ≠ "" ∧
  anyModule (Path m) "" = inl {| repoURL := "https://example.com/m"; commit := "" |} ∧
  filepath.Rel (Dir m) "/src/m/LICENSE" = Some "LICENSE" ∧
  FileURL anyModule blobURL (Some l) "/src/m/LICENSE" =
    ("https://example.com/m/blob/HEAD/LICENSE", None,
     [WarnEmptyVersion "example.com/m"]).
Proof.
  intros m l.
  assert (Dir m ≠ "") as Hdir by discriminate.
  assert (filepath.Rel (Dir m) "/src/m/LICENSE" = Some "LICENSE") as Hrel
    by (vm_compute; reflexivity).
  destruct (FileURL_empty_version anyModule blobURL l m "/src/m/LICENSE"
              {| repoURL := "https://example.com/m"; commit := "" |} "LICENSE"
              eq_refl eq_refl Hdir eq_refl Hrel) as [Hurl _].
  split_and!; [reflexivity|reflexivity|exact Hdir|reflexivity|exact Hrel|exact Hurl].
Defined.



(** X1: the members in two orders, one name. *)
Lemma Name_Permutation_witness :
  let l1 := library "" ["example.com/m/y"; "example.com/m/x"; "example.com/m"]
              "example.com/m" "v1.2.3" "/src/m" in
  let l2 := library "/src/m/LICENSE"
              ["example.com/m"; "example.com/m/x"; "example.com/m/y"]
              "example.com/m" "v1.2.3" "/src/m" in
  Packages l1 ≡ₚ Packages l2 ∧ Name l1 = Name l2 ∧ Name l1 = "example.com/m".
Proof.
  intros l1 l2.
  assert (Packages l1 ≡ₚ Packages l2) as Hp.
  { change (["example.com/m/y"; "example.com/m/x"; "example.com/m"]
            ≡ₚ ["example.com/m"; "example.com/m/x"; "example.com/m/y"]).
    change (reverse ["example.com/m"; "example.com/m/x"; "example.com/m/y"]
            ≡ₚ ["example.com/m"; "example.com/m/x"; "example.com/m/y"]).
    apply reverse_Permutation. }
  split_and!; [exact Hp|exact (Name_Permutation l1 l2 Hp)|vm_compute; reflexivity].
Defined.

(** X4: without license files, the two packages are two libraries. *)
Lemma unlicensed_libraries_witness :
  let r := {| libraries := [library "" ["example.com/m/x"]
                              "example.com/m" "v1.2.3" "/src/m";
                            library "" ["example.com/m/y"]
                              "example.com/m" "v1.2.3" "/src/m"];
              err := None; logged := [] |} in
  (∀ m, ascending m ≡ₚ map_to_list m) ∧
  Libraries GOROOT findNothing ascending tt false [] twoPackages ([0], None) = Some r ∧
  err r = None ∧
  library "" ["example.com/m/y"] "example.com/m" "v1.2.3" "/src/m" ∈ libraries r ∧
  (∀ l, l ∈ libraries r → LicensePath l = "" →
     ∃ p, ("", p) ∈ survivors GOROOT findNothing tt false [] twoPackages [0] ∧
          Packages l = [packages.PkgPath p] ∧
          module l = newModule (packages.Module' p)).
Proof.
  intros r.
  assert (Libraries GOROOT findNothing ascending tt false [] twoPackages ([0], None)
          = Some r) as Hrun by (vm_compute; reflexivity).
  destruct (unlicensed_libraries GOROOT findNothing ascending tt false []
              twoPackages [0] ascending_entries) as (r' & Hrun' & Hun).
  pose proof (eq_trans (eq_sym Hrun') Hrun) as Hr. injection Hr as Hr. subst r'.
  destruct (Hun eq_refl) as [Hin Hout].
  split_and!; [exact ascending_entries|exact Hrun|reflexivity| |exact Hout].
  refine (Hin (pkg "y" "example.com/m/y" ["/src/m/y/y.go"] ∅ modM) _).
  apply (list_elem_of_lookup_2 _ 1). vm_compute. reflexivity.
Defined.

(** X5: three license files, three libraries. *)
Lemma libraries_by_license_witness :
  let r := {| libraries :=
                [library "/src/app/LICENSE" ["example.com/app"]
                   "example.com/app" "" "/src/app";
                 library "/mod/example.com/go/kit@v1.0.0/LICENSE"
                   ["example.com/go/kit"]
                   "example.com/go/kit" "v1.0.0" "/mod/example.com/go/kit@v1.0.0";
                 library "/mod/example.com/go@v0.1.0/LICENSE"
                   ["example.com/go/kit/log"; "example.com/go/kit/trace"]
                   "example.com/go" "v0.1.0" "/mod/example.com/go@v0.1.0"];
              err := None; logged := [] |} in
  (∀ m, ascending m ≡ₚ map_to_list m) ∧
  Libraries GOROOT findAtRoot ascending tt false [] nestedModules ([0], None) = Some r ∧
  err r = None ∧
  NoDup (filter (λ k, k ≠ "") (LicensePath <$> libraries r)) ∧
  (∀ k, k ∈ LicensePath <$> libraries r ↔
        ∃ p, (k, p) ∈ survivors GOROOT findAtRoot tt false [] nestedModules [0]) ∧
  (∀ l, l ∈ libraries r → Packages l ≠ []).
Proof.
  intros r.
  assert (Libraries GOROOT findAtRoot ascending tt false [] nestedModules ([0], None)
          = Some r) as Hrun by (vm_compute; reflexivity).
  destruct (libraries_by_license GOROOT findAtRoot ascending tt false []
              nestedModules [0] ascending_entries) as (r' & Hrun' & Hby).
  pose proof (eq_trans (eq_sym Hrun') Hrun) as Hr. injection Hr as Hr. subst r'.
  destruct (Hby eq_refl) as (Hnd & Hpaths & Hmembers).
  split_and!; [exact ascending_entries|exact Hrun|reflexivity|exact Hnd|exact Hpaths|
               exact Hmembers].
Defined.

(** X6: both members of the library got through the filter. *)
Lemma members_passed_filter_witness :
  let r := {| libraries := [library "/src/m/LICENSE"
                              ["example.com/m/x"; "example.com/m/y"]
                              "example.com/m" "v1.2.3" "/src/m"];
              err := None; logged := [] |} in
  (∀ m, ascending m ≡ₚ map_to_list m) ∧
  Libraries GOROOT findAtRoot ascending tt false [] twoPackages ([0], None) = Some r ∧
  err r = None ∧
  ∀ l path, l ∈ libraries r → path ∈ Packages l →
    ∃ x p, reachable twoPackages (descends GOROOT findAtRoot tt false []) [0] x ∧
           twoPackages !! x = Some p ∧ packages.PkgPath p = path ∧
           inspected GOROOT false [] p ∧ packages.Module' p ≠ None.
Proof.
  intros r.
  assert (Libraries GOROOT findAtRoot ascending tt false [] twoPackages ([0], None)
          = Some r) as Hrun by (vm_compute; reflexivity).
  destruct (members_passed_filter GOROOT findAtRoot ascending tt false []
              twoPackages [0] ascending_entries) as (r' & Hrun' & Hmem).
  pose proof (eq_trans (eq_sym Hrun') Hrun) as Hr. injection Hr as Hr. subst r'.
  split_and!; [exact ascending_entries|exact Hrun|reflexivity|exact (Hmem eq_refl)].
Defined.
